(** * The OCI runtime-spec Generator ([generate.go]) as a shallow embedding

    The Go type [Generator] wraps a pointer to one mutable configuration
    document ([rspec.Spec]).  Every method is embedded as a computation in a
    small state monad over the generator, in which dereferencing a nil pointer
    is an explicit outcome ([Panicked]) distinct from returning a Go [error].

    Conventions: a Go pointer [*T] is [option T] (nil = [None]); a Go slice is
    a [list] (a nil slice and an empty slice are both [[]]); a Go
    [map[string]string] is [option (gmap string string)] (a nil map is
    [None]); fixed-width integers are [Z], no arithmetic is performed on them
    by the generator. *)

From stdpp Require Import base option strings list gmap.
From Stdlib Require Import ZArith Ascii.

(** ** Errors *)

(** A Go [error] built by [fmt.Errorf]: its message. *)
Definition error : Type := string.

(** ** Packages the generator imports *)

(** [strings.ToUpper] of the Go standard library. *)
Module strings.
Class Pkg := { ToUpper : string → string }.
End strings.

(** Package [capability] (gocapability): the capability registry.  [Cap] is
    the Go type [capability.Cap] (an [int]); [List] and [String] are
    [capability.List()] and [Cap.String()]; [CAP_LAST_CAP] is the value read
    from the host when the package is initialised. *)
Module capability.
Definition Cap : Type := Z.
Class Registry := {
  List : list Cap;
  String : Cap → string;
  CAP_LAST_CAP : Cap;
  CAP_BLOCK_SUSPEND : Cap
}.
End capability.

(** ** Data model (package [rspec]) *)

(** Modelled from the spec: the struct declarations of runtime-spec/specs-go
    are not among the sources; the records below carry the fields that
    [generate.go] names, with the field names of the Go code prefixed by the
    struct name. *)
Record Platform := {
  Platform_OS : string;
  Platform_Arch : string
}.

Record Root := {
  Root_Path : string;
  Root_Readonly : bool
}.

Record User := {
  User_UID : Z;
  User_GID : Z;
  User_AdditionalGids : list Z
}.

Record LinuxRlimit := {
  LinuxRlimit_Type : string;
  LinuxRlimit_Hard : Z;
  LinuxRlimit_Soft : Z
}.

Record Process := {
  Process_Terminal : bool;
  Process_User : User;
  Process_Args : list string;
  Process_Env : list string;
  Process_Cwd : string;
  Process_Capabilities : list string;
  Process_Rlimits : list LinuxRlimit;
  Process_NoNewPrivileges : bool;
  Process_ApparmorProfile : string;
  Process_SelinuxLabel : string
}.

Record Mount := {
  Mount_Destination : string;
  Mount_Type : string;
  Mount_Source : string;
  Mount_Options : list string
}.

Record Hook := {
  Hook_Path : string;
  Hook_Args : list string
}.

Record Hooks := {
  Hooks_Prestart : list Hook;
  Hooks_Poststart : list Hook;
  Hooks_Poststop : list Hook
}.

(** [rspec.LinuxNamespaceType] is a Go string type. *)
Definition LinuxNamespaceType : Type := string.
Definition PIDNamespace : LinuxNamespaceType := "pid".
Definition NetworkNamespace : LinuxNamespaceType := "network".
Definition MountNamespace : LinuxNamespaceType := "mount".
Definition IPCNamespace : LinuxNamespaceType := "ipc".
Definition UTSNamespace : LinuxNamespaceType := "uts".
Definition UserNamespace : LinuxNamespaceType := "user".
Definition CgroupNamespace : LinuxNamespaceType := "cgroup".

Record LinuxNamespace := {
  LinuxNamespace_Type : LinuxNamespaceType;
  LinuxNamespace_Path : string
}.

Record LinuxIDMapping := {
  LinuxIDMapping_HostID : Z;
  LinuxIDMapping_ContainerID : Z;
  LinuxIDMapping_Size : Z
}.

Record LinuxDeviceCgroup := {
  LinuxDeviceCgroup_Allow : bool;
  LinuxDeviceCgroup_Access : string
}.

Record LinuxCPU := {
  LinuxCPU_Shares : option Z;
  LinuxCPU_Quota : option Z;
  LinuxCPU_Period : option Z;
  LinuxCPU_RealtimeRuntime : option Z;
  LinuxCPU_RealtimePeriod : option Z;
  LinuxCPU_Cpus : string;
  LinuxCPU_Mems : string
}.

Record LinuxMemory := {
  LinuxMemory_Limit : option Z;
  LinuxMemory_Reservation : option Z;
  LinuxMemory_Swap : option Z;
  LinuxMemory_Kernel : option Z;
  LinuxMemory_KernelTCP : option Z;
  LinuxMemory_Swappiness : option Z
}.

Record LinuxInterfacePriority := {
  LinuxInterfacePriority_Name : string;
  LinuxInterfacePriority_Priority : Z
}.

Record LinuxNetwork := {
  LinuxNetwork_ClassID : option Z;
  LinuxNetwork_Priorities : list LinuxInterfacePriority
}.

Record LinuxPids := {
  LinuxPids_Limit : Z
}.

Record LinuxResources := {
  LinuxResources_Devices : list LinuxDeviceCgroup;
  LinuxResources_DisableOOMKiller : option bool;
  LinuxResources_OOMScoreAdj : option Z;
  LinuxResources_Memory : option LinuxMemory;
  LinuxResources_CPU : option LinuxCPU;
  LinuxResources_Pids : option LinuxPids;
  LinuxResources_Network : option LinuxNetwork
}.

Record LinuxDevice := {
  LinuxDevice_Path : string;
  LinuxDevice_Type : string;
  LinuxDevice_Major : Z;
  LinuxDevice_Minor : Z
}.

(** The syscall-filter subtree.  The generator never reads its fields: it is
    handed to package [seccomp] as a whole. *)
Record LinuxSyscall := {
  LinuxSyscall_Name : string;
  LinuxSyscall_Action : string
}.

Record LinuxSeccomp := {
  LinuxSeccomp_DefaultAction : string;
  LinuxSeccomp_Architectures : list string;
  LinuxSeccomp_Syscalls : list LinuxSyscall
}.

Record Linux := {
  Linux_UIDMappings : list LinuxIDMapping;
  Linux_GIDMappings : list LinuxIDMapping;
  Linux_Sysctl : option (gmap string string);
  Linux_Resources : option LinuxResources;
  Linux_CgroupsPath : string;
  Linux_Namespaces : list LinuxNamespace;
  Linux_Devices : list LinuxDevice;
  Linux_Seccomp : option LinuxSeccomp;
  Linux_RootfsPropagation : string;
  Linux_MaskedPaths : list string;
  Linux_ReadonlyPaths : list string;
  Linux_MountLabel : string
}.

Record Spec := {
  Spec_Version : string;
  Spec_Platform : Platform;
  Spec_Process : Process;
  Spec_Root : Root;
  Spec_Hostname : string;
  Spec_Mounts : list Mount;
  Spec_Hooks : Hooks;
  Spec_Annotations : option (gmap string string);
  Spec_Linux : option Linux
}.

(** Go zero values: [rspec.Spec{}] and [rspec.Linux{}]. *)
Definition User_zero : User :=
  {| User_UID := 0; User_GID := 0; User_AdditionalGids := [] |}.

Definition Process_zero : Process :=
  {| Process_Terminal := false; Process_User := User_zero;
     Process_Args := []; Process_Env := []; Process_Cwd := "";
     Process_Capabilities := []; Process_Rlimits := [];
     Process_NoNewPrivileges := false; Process_ApparmorProfile := "";
     Process_SelinuxLabel := "" |}.

Definition Linux_zero : Linux :=
  {| Linux_UIDMappings := []; Linux_GIDMappings := []; Linux_Sysctl := None;
     Linux_Resources := None; Linux_CgroupsPath := "";
     Linux_Namespaces := []; Linux_Devices := []; Linux_Seccomp := None;
     Linux_RootfsPropagation := ""; Linux_MaskedPaths := [];
     Linux_ReadonlyPaths := []; Linux_MountLabel := "" |}.

Definition Spec_zero : Spec :=
  {| Spec_Version := "";
     Spec_Platform := {| Platform_OS := ""; Platform_Arch := "" |};
     Spec_Process := Process_zero;
     Spec_Root := {| Root_Path := ""; Root_Readonly := false |};
     Spec_Hostname := ""; Spec_Mounts := [];
     Spec_Hooks := {| Hooks_Prestart := []; Hooks_Poststart := [];
                      Hooks_Poststop := [] |};
     Spec_Annotations := None; Spec_Linux := None |}.

(** *** Field assignment

    [set_F v x] is the struct [x] after the Go assignment [x.F = v]. *)
Definition set_User_AdditionalGids (v : list Z) (u : User) : User :=
  {| User_UID := User_UID u; User_GID := User_GID u;
     User_AdditionalGids := v |}.

Definition set_Process_User (v : User) (p : Process) : Process :=
  {| Process_Terminal := Process_Terminal p; Process_User := v;
     Process_Args := Process_Args p; Process_Env := Process_Env p;
     Process_Cwd := Process_Cwd p;
     Process_Capabilities := Process_Capabilities p;
     Process_Rlimits := Process_Rlimits p;
     Process_NoNewPrivileges := Process_NoNewPrivileges p;
     Process_ApparmorProfile := Process_ApparmorProfile p;
     Process_SelinuxLabel := Process_SelinuxLabel p |}.

Definition set_Process_Env (v : list string) (p : Process) : Process :=
  {| Process_Terminal := Process_Terminal p; Process_User := Process_User p;
     Process_Args := Process_Args p; Process_Env := v;
     Process_Cwd := Process_Cwd p;
     Process_Capabilities := Process_Capabilities p;
     Process_Rlimits := Process_Rlimits p;
     Process_NoNewPrivileges := Process_NoNewPrivileges p;
     Process_ApparmorProfile := Process_ApparmorProfile p;
     Process_SelinuxLabel := Process_SelinuxLabel p |}.

Definition set_Process_Capabilities (v : list string) (p : Process) : Process :=
  {| Process_Terminal := Process_Terminal p; Process_User := Process_User p;
     Process_Args := Process_Args p; Process_Env := Process_Env p;
     Process_Cwd := Process_Cwd p;
     Process_Capabilities := v;
     Process_Rlimits := Process_Rlimits p;
     Process_NoNewPrivileges := Process_NoNewPrivileges p;
     Process_ApparmorProfile := Process_ApparmorProfile p;
     Process_SelinuxLabel := Process_SelinuxLabel p |}.

Definition set_Process_Rlimits (v : list LinuxRlimit) (p : Process) : Process :=
  {| Process_Terminal := Process_Terminal p; Process_User := Process_User p;
     Process_Args := Process_Args p; Process_Env := Process_Env p;
     Process_Cwd := Process_Cwd p;
     Process_Capabilities := Process_Capabilities p;
     Process_Rlimits := v;
     Process_NoNewPrivileges := Process_NoNewPrivileges p;
     Process_ApparmorProfile := Process_ApparmorProfile p;
     Process_SelinuxLabel := Process_SelinuxLabel p |}.

Definition set_Process_ApparmorProfile (v : string) (p : Process) : Process :=
  {| Process_Terminal := Process_Terminal p; Process_User := Process_User p;
     Process_Args := Process_Args p; Process_Env := Process_Env p;
     Process_Cwd := Process_Cwd p;
     Process_Capabilities := Process_Capabilities p;
     Process_Rlimits := Process_Rlimits p;
     Process_NoNewPrivileges := Process_NoNewPrivileges p;
     Process_ApparmorProfile := v;
     Process_SelinuxLabel := Process_SelinuxLabel p |}.

Definition set_Process_SelinuxLabel (v : string) (p : Process) : Process :=
  {| Process_Terminal := Process_Terminal p; Process_User := Process_User p;
     Process_Args := Process_Args p; Process_Env := Process_Env p;
     Process_Cwd := Process_Cwd p;
     Process_Capabilities := Process_Capabilities p;
     Process_Rlimits := Process_Rlimits p;
     Process_NoNewPrivileges := Process_NoNewPrivileges p;
     Process_ApparmorProfile := Process_ApparmorProfile p;
     Process_SelinuxLabel := v |}.

Definition set_Hooks_Prestart (v : list Hook) (h : Hooks) : Hooks :=
  {| Hooks_Prestart := v; Hooks_Poststart := Hooks_Poststart h;
     Hooks_Poststop := Hooks_Poststop h |}.

Definition set_Hooks_Poststart (v : list Hook) (h : Hooks) : Hooks :=
  {| Hooks_Prestart := Hooks_Prestart h; Hooks_Poststart := v;
     Hooks_Poststop := Hooks_Poststop h |}.

Definition set_Hooks_Poststop (v : list Hook) (h : Hooks) : Hooks :=
  {| Hooks_Prestart := Hooks_Prestart h;
     Hooks_Poststart := Hooks_Poststart h; Hooks_Poststop := v |}.

Definition set_Linux_UIDMappings (v : list LinuxIDMapping) (l : Linux) : Linux :=
  {| Linux_UIDMappings := v; Linux_GIDMappings := Linux_GIDMappings l;
     Linux_Sysctl := Linux_Sysctl l; Linux_Resources := Linux_Resources l;
     Linux_CgroupsPath := Linux_CgroupsPath l;
     Linux_Namespaces := Linux_Namespaces l;
     Linux_Devices := Linux_Devices l; Linux_Seccomp := Linux_Seccomp l;
     Linux_RootfsPropagation := Linux_RootfsPropagation l;
     Linux_MaskedPaths := Linux_MaskedPaths l;
     Linux_ReadonlyPaths := Linux_ReadonlyPaths l;
     Linux_MountLabel := Linux_MountLabel l |}.

Definition set_Linux_GIDMappings (v : list LinuxIDMapping) (l : Linux) : Linux :=
  {| Linux_UIDMappings := Linux_UIDMappings l; Linux_GIDMappings := v;
     Linux_Sysctl := Linux_Sysctl l; Linux_Resources := Linux_Resources l;
     Linux_CgroupsPath := Linux_CgroupsPath l;
     Linux_Namespaces := Linux_Namespaces l;
     Linux_Devices := Linux_Devices l; Linux_Seccomp := Linux_Seccomp l;
     Linux_RootfsPropagation := Linux_RootfsPropagation l;
     Linux_MaskedPaths := Linux_MaskedPaths l;
     Linux_ReadonlyPaths := Linux_ReadonlyPaths l;
     Linux_MountLabel := Linux_MountLabel l |}.

Definition set_Linux_Sysctl (v : option (gmap string string)) (l : Linux) : Linux :=
  {| Linux_UIDMappings := Linux_UIDMappings l;
     Linux_GIDMappings := Linux_GIDMappings l;
     Linux_Sysctl := v; Linux_Resources := Linux_Resources l;
     Linux_CgroupsPath := Linux_CgroupsPath l;
     Linux_Namespaces := Linux_Namespaces l;
     Linux_Devices := Linux_Devices l; Linux_Seccomp := Linux_Seccomp l;
     Linux_RootfsPropagation := Linux_RootfsPropagation l;
     Linux_MaskedPaths := Linux_MaskedPaths l;
     Linux_ReadonlyPaths := Linux_ReadonlyPaths l;
     Linux_MountLabel := Linux_MountLabel l |}.

Definition set_Linux_Namespaces (v : list LinuxNamespace) (l : Linux) : Linux :=
  {| Linux_UIDMappings := Linux_UIDMappings l;
     Linux_GIDMappings := Linux_GIDMappings l;
     Linux_Sysctl := Linux_Sysctl l; Linux_Resources := Linux_Resources l;
     Linux_CgroupsPath := Linux_CgroupsPath l;
     Linux_Namespaces := v;
     Linux_Devices := Linux_Devices l; Linux_Seccomp := Linux_Seccomp l;
     Linux_RootfsPropagation := Linux_RootfsPropagation l;
     Linux_MaskedPaths := Linux_MaskedPaths l;
     Linux_ReadonlyPaths := Linux_ReadonlyPaths l;
     Linux_MountLabel := Linux_MountLabel l |}.

Definition set_Linux_Seccomp (v : option LinuxSeccomp) (l : Linux) : Linux :=
  {| Linux_UIDMappings := Linux_UIDMappings l;
     Linux_GIDMappings := Linux_GIDMappings l;
     Linux_Sysctl := Linux_Sysctl l; Linux_Resources := Linux_Resources l;
     Linux_CgroupsPath := Linux_CgroupsPath l;
     Linux_Namespaces := Linux_Namespaces l;
     Linux_Devices := Linux_Devices l; Linux_Seccomp := v;
     Linux_RootfsPropagation := Linux_RootfsPropagation l;
     Linux_MaskedPaths := Linux_MaskedPaths l;
     Linux_ReadonlyPaths := Linux_ReadonlyPaths l;
     Linux_MountLabel := Linux_MountLabel l |}.

Definition set_Spec_Process (v : Process) (s : Spec) : Spec :=
  {| Spec_Version := Spec_Version s; Spec_Platform := Spec_Platform s;
     Spec_Process := v; Spec_Root := Spec_Root s;
     Spec_Hostname := Spec_Hostname s; Spec_Mounts := Spec_Mounts s;
     Spec_Hooks := Spec_Hooks s; Spec_Annotations := Spec_Annotations s;
     Spec_Linux := Spec_Linux s |}.

Definition set_Spec_Mounts (v : list Mount) (s : Spec) : Spec :=
  {| Spec_Version := Spec_Version s; Spec_Platform := Spec_Platform s;
     Spec_Process := Spec_Process s; Spec_Root := Spec_Root s;
     Spec_Hostname := Spec_Hostname s; Spec_Mounts := v;
     Spec_Hooks := Spec_Hooks s; Spec_Annotations := Spec_Annotations s;
     Spec_Linux := Spec_Linux s |}.

Definition set_Spec_Hooks (v : Hooks) (s : Spec) : Spec :=
  {| Spec_Version := Spec_Version s; Spec_Platform := Spec_Platform s;
     Spec_Process := Spec_Process s; Spec_Root := Spec_Root s;
     Spec_Hostname := Spec_Hostname s; Spec_Mounts := Spec_Mounts s;
     Spec_Hooks := v; Spec_Annotations := Spec_Annotations s;
     Spec_Linux := Spec_Linux s |}.

Definition set_Spec_Annotations (v : option (gmap string string)) (s : Spec) : Spec :=
  {| Spec_Version := Spec_Version s; Spec_Platform := Spec_Platform s;
     Spec_Process := Spec_Process s; Spec_Root := Spec_Root s;
     Spec_Hostname := Spec_Hostname s; Spec_Mounts := Spec_Mounts s;
     Spec_Hooks := Spec_Hooks s; Spec_Annotations := v;
     Spec_Linux := Spec_Linux s |}.

Definition set_Spec_Linux (v : option Linux) (s : Spec) : Spec :=
  {| Spec_Version := Spec_Version s; Spec_Platform := Spec_Platform s;
     Spec_Process := Spec_Process s; Spec_Root := Spec_Root s;
     Spec_Hostname := Spec_Hostname s; Spec_Mounts := Spec_Mounts s;
     Spec_Hooks := Spec_Hooks s; Spec_Annotations := Spec_Annotations s;
     Spec_Linux := v |}.

(** ** The generator and its monad *)

Record Generator := {
  spec : option Spec;
  HostSpecific : bool
}.

Record ExportOptions := {
  Seccomp : bool
}.

(** The result of running a method on a generator: it returns a value and
    leaves the generator in a new state, or it dereferences a nil pointer
    and the Go runtime panics (the state reached is kept). *)
Inductive outcome (A : Type) : Type :=
| Returned (a : A) (g : Generator)
| Panicked (g : Generator).
Arguments Returned {A} a g.
Arguments Panicked {A} g.

Definition G (A : Type) : Type := Generator → outcome A.

Global Instance G_ret : MRet G := λ A a g, Returned a g.
Global Instance G_bind : MBind G := λ A B f m g,
  match m g with
  | Returned a g' => f a g'
  | Panicked g' => Panicked g'
  end.

(** Reading the field [g.HostSpecific]. *)
Definition getHostSpecific : G bool := λ g, Returned (HostSpecific g) g.

(** Reading the pointer [g.spec] (as in [g.spec == nil]) and assigning it. *)
Definition getSpecPtr : G (option Spec) := λ g, Returned (spec g) g.

Definition setSpecPtr (p : option Spec) : G unit := λ g,
  Returned tt {| spec := p; HostSpecific := HostSpecific g |}.

(** Dereferencing a pointer: nil panics. *)
Definition deref {A : Type} (p : option A) : G A := λ g,
  match p with
  | Some a => Returned a g
  | None => Panicked g
  end.

(** Reading and writing through [g.spec]. *)
Definition loadSpec : G Spec := p ← getSpecPtr; deref p.

Definition storeSpec (doc : Spec) : G unit :=
  _ ← loadSpec; setSpecPtr (Some doc).

(** Reading and writing through [g.spec.Linux]. *)
Definition loadLinux : G Linux := doc ← loadSpec; deref (Spec_Linux doc).

Definition storeLinux (l : Linux) : G unit :=
  doc ← loadSpec; _ ← deref (Spec_Linux doc);
  storeSpec (set_Spec_Linux (Some l) doc).

(** ** Lazy initialisation *)

(** Modelled from the spec: [initSpec] lives in a file of package
    [generate] that is not among the sources.  Section 4.1: a mutation first
    ensures that all missing ancestors exist, allocating them with zero
    values; here the document itself ([&rspec.Spec{}]). *)
Definition initSpec : G unit :=
  p ← getSpecPtr;
  match p with
  | None => setSpecPtr (Some Spec_zero)
  | Some _ => mret tt
  end.

(** Modelled from the spec: [initSpecLinux], of the same missing file,
    ensures the document and then its Linux subtree ([&rspec.Linux{}]). *)
Definition initSpecLinux : G unit :=
  initSpec;;
  doc ← loadSpec;
  match Spec_Linux doc with
  | None => storeSpec (set_Spec_Linux (Some Linux_zero) doc)
  | Some _ => mret tt
  end.

(** ** Capabilities *)

Section capabilities.
Context `{!strings.Pkg} `{!capability.Registry}.

Definition lastCap : capability.Cap :=
  let last := capability.CAP_LAST_CAP in
  (* hack for RHEL6 which has no /proc/sys/kernel/cap_last_cap *)
  if bool_decide (last = 63%Z) then capability.CAP_BLOCK_SUSPEND else last.

Definition checkCap (c : string) (hostSpecific : bool) : option error :=
  let cp := strings.ToUpper c in
  match list_find (λ cap, cp = strings.ToUpper (capability.String cap))
                  capability.List with
  | Some (_, cap) =>
      if hostSpecific && bool_decide (lastCap < cap)%Z
      then Some ("CAP_" +:+ cp +:+ " is not supported on the current host")
      else None
  | None => Some "Invalid value passed for adding capability"
  end.

Definition ClearProcessCapabilities : G unit :=
  p ← getSpecPtr;
  match p with
  | None => mret tt
  | Some _ =>
      doc ← loadSpec;
      storeSpec (set_Spec_Process
                   (set_Process_Capabilities [] (Spec_Process doc)) doc)
  end.

Definition AddProcessCapability (c : string) : G (option error) :=
  hostSpecific ← getHostSpecific;
  match checkCap c hostSpecific with
  | Some err => mret (Some err)
  | None =>
      let cp := "CAP_" +:+ strings.ToUpper c in
      initSpec;;
      doc ← loadSpec;
      match list_find (λ cap, strings.ToUpper cap = cp)
                      (Process_Capabilities (Spec_Process doc)) with
      | Some _ => mret None
      | None =>
          storeSpec (set_Spec_Process
                       (set_Process_Capabilities
                          (Process_Capabilities (Spec_Process doc) ++ [cp])
                          (Spec_Process doc)) doc);;
          mret None
      end
  end.

Definition DropProcessCapability (c : string) : G (option error) :=
  hostSpecific ← getHostSpecific;
  match checkCap c hostSpecific with
  | Some err => mret (Some err)
  | None =>
      let cp := "CAP_" +:+ strings.ToUpper c in
      initSpec;;
      doc ← loadSpec;
      let caps := Process_Capabilities (Spec_Process doc) in
      match list_find (λ cap, strings.ToUpper cap = cp) caps with
      | Some (i, _) =>
          storeSpec (set_Spec_Process
                       (set_Process_Capabilities
                          (take i caps ++ drop (S i) caps)
                          (Spec_Process doc)) doc);;
          mret None
      | None => mret None
      end
  end.

Definition SetupPrivileged (privileged : bool) : G unit :=
  if privileged then
    hostSpecific ← getHostSpecific;
    (* Add all capabilities in privileged mode. *)
    let finalCapList :=
      foldl (λ acc cap,
               if hostSpecific && bool_decide (lastCap < cap)%Z then acc
               else acc ++ ["CAP_" +:+ strings.ToUpper (capability.String cap)])
            [] capability.List in
    initSpecLinux;;
    doc ← loadSpec;
    storeSpec (set_Spec_Process
                 (set_Process_Capabilities finalCapList (Spec_Process doc))
                 doc);;
    doc ← loadSpec;
    storeSpec (set_Spec_Process
                 (set_Process_SelinuxLabel "" (Spec_Process doc)) doc);;
    doc ← loadSpec;
    storeSpec (set_Spec_Process
                 (set_Process_ApparmorProfile "" (Spec_Process doc)) doc);;
    l ← loadLinux;
    storeLinux (set_Linux_Seccomp None l)
  else mret tt.
End capabilities.

(** ** Rlimits *)

Definition AddProcessRlimits (rType : string) (rHard rSoft : Z) : G unit :=
  initSpec;;
  doc ← loadSpec;
  let rlimits := Process_Rlimits (Spec_Process doc) in
  match list_find (λ rlimit, LinuxRlimit_Type rlimit = rType) rlimits with
  | Some (i, rlimit) =>
      storeSpec (set_Spec_Process
                   (set_Process_Rlimits
                      (<[i := {| LinuxRlimit_Type := LinuxRlimit_Type rlimit;
                                 LinuxRlimit_Hard := rHard;
                                 LinuxRlimit_Soft := rSoft |}]> rlimits)
                      (Spec_Process doc)) doc)
  | None =>
      let newRlimit := {| LinuxRlimit_Type := rType;
                          LinuxRlimit_Hard := rHard;
                          LinuxRlimit_Soft := rSoft |} in
      storeSpec (set_Spec_Process
                   (set_Process_Rlimits (rlimits ++ [newRlimit])
                      (Spec_Process doc)) doc)
  end.

Definition RemoveProcessRlimits (rType : string) : G (option error) :=
  p ← getSpecPtr;
  match p with
  | None => mret None
  | Some _ =>
      doc ← loadSpec;
      let rlimits := Process_Rlimits (Spec_Process doc) in
      match list_find (λ rlimit, LinuxRlimit_Type rlimit = rType) rlimits with
      | Some (i, _) =>
          storeSpec (set_Spec_Process
                       (set_Process_Rlimits
                          (take i rlimits ++ drop (S i) rlimits)
                          (Spec_Process doc)) doc);;
          mret None
      | None => mret None
      end
  end.

Definition ClearProcessRlimits : G unit :=
  p ← getSpecPtr;
  match p with
  | None => mret tt
  | Some _ =>
      doc ← loadSpec;
      storeSpec (set_Spec_Process
                   (set_Process_Rlimits [] (Spec_Process doc)) doc)
  end.

(** ** Environment, additional gids, annotations, sysctl, id mappings, hooks *)

Definition ClearProcessEnv : G unit :=
  p ← getSpecPtr;
  match p with
  | None => mret tt
  | Some _ =>
      doc ← loadSpec;
      storeSpec (set_Spec_Process (set_Process_Env [] (Spec_Process doc)) doc)
  end.

Definition ClearProcessAdditionalGids : G unit :=
  p ← getSpecPtr;
  match p with
  | None => mret tt
  | Some _ =>
      doc ← loadSpec;
      storeSpec (set_Spec_Process
                   (set_Process_User
                      (set_User_AdditionalGids []
                         (Process_User (Spec_Process doc)))
                      (Spec_Process doc)) doc)
  end.

Definition ClearAnnotations : G unit :=
  p ← getSpecPtr;
  match p with
  | None => mret tt
  | Some _ =>
      doc ← loadSpec;
      storeSpec (set_Spec_Annotations (Some ∅) doc)
  end.

Definition RemoveAnnotation (key : string) : G unit :=
  p ← getSpecPtr;
  match p with
  | None => mret tt
  | Some doc =>
      match Spec_Annotations doc with
      | None => mret tt
      | Some m => storeSpec (set_Spec_Annotations (Some (delete key m)) doc)
      end
  end.

(** The guard [g.spec == nil || g.spec.Linux == nil], evaluated left to
    right: [true] when the method has to return at once. *)
Definition noLinux : G bool :=
  p ← getSpecPtr;
  match p with
  | None => mret true
  | Some doc => mret (bool_decide (Spec_Linux doc = None :> option Linux))
  end.

Definition ClearLinuxSysctl : G unit :=
  b ← noLinux;
  if b : bool then mret tt
  else l ← loadLinux; storeLinux (set_Linux_Sysctl (Some ∅) l).

Definition RemoveLinuxSysctl (key : string) : G unit :=
  b ← noLinux;
  if b : bool then mret tt
  else
    l ← loadLinux;
    match Linux_Sysctl l with
    | None => mret tt
    | Some m => storeLinux (set_Linux_Sysctl (Some (delete key m)) l)
    end.

Definition ClearLinuxUIDMappings : G unit :=
  b ← noLinux;
  if b : bool then mret tt
  else l ← loadLinux; storeLinux (set_Linux_UIDMappings [] l).

Definition ClearLinuxGIDMappings : G unit :=
  b ← noLinux;
  if b : bool then mret tt
  else l ← loadLinux; storeLinux (set_Linux_GIDMappings [] l).

Definition ClearPreStartHooks : G unit :=
  p ← getSpecPtr;
  match p with
  | None => mret tt
  | Some _ =>
      doc ← loadSpec;
      storeSpec (set_Spec_Hooks (set_Hooks_Prestart [] (Spec_Hooks doc)) doc)
  end.

Definition ClearPostStopHooks : G unit :=
  p ← getSpecPtr;
  match p with
  | None => mret tt
  | Some _ =>
      doc ← loadSpec;
      storeSpec (set_Spec_Hooks (set_Hooks_Poststop [] (Spec_Hooks doc)) doc)
  end.

Definition ClearPostStartHooks : G unit :=
  p ← getSpecPtr;
  match p with
  | None => mret tt
  | Some _ =>
      doc ← loadSpec;
      storeSpec (set_Spec_Hooks (set_Hooks_Poststart [] (Spec_Hooks doc)) doc)
  end.

(** ** Mounts *)

Definition AddTmpfsMount (dest : string) (options : list string) : G unit :=
  let mnt := {| Mount_Destination := dest; Mount_Type := "tmpfs";
                Mount_Source := "tmpfs"; Mount_Options := options |} in
  initSpec;;
  doc ← loadSpec;
  storeSpec (set_Spec_Mounts (Spec_Mounts doc ++ [mnt]) doc).

(** What the [switch] of [AddCgroupsMount] does with the option: it falls
    out of the switch ([inl]) or returns from the method ([inr]). *)
Definition AddCgroupsMount_switch (mountCgroupOption : string) : unit + option error :=
  if bool_decide (mountCgroupOption = "ro") then inl tt
  else if bool_decide (mountCgroupOption = "rw") then inl tt
  else if bool_decide (mountCgroupOption = "no") then inr None
  else inr (Some "--mount-cgroups should be one of (ro,rw,no)").

Definition AddCgroupsMount (mountCgroupOption : string) : G (option error) :=
  match AddCgroupsMount_switch mountCgroupOption with
  | inr r => mret r
  | inl _ =>
      let mnt := {| Mount_Destination := "/sys/fs/cgroup";
                    Mount_Type := "cgroup"; Mount_Source := "cgroup";
                    Mount_Options := ["nosuid"; "noexec"; "nodev"; "relatime";
                                      mountCgroupOption] |} in
      initSpec;;
      doc ← loadSpec;
      storeSpec (set_Spec_Mounts (Spec_Mounts doc ++ [mnt]) doc);;
      mret None
  end.

Definition AddBindMount (source dest : string) (options : list string) : G unit :=
  let options := if bool_decide (length options = 0) then ["rw"] else options in
  (* We have to make sure that there is a bind option set, otherwise it
     won't be an actual bindmount. *)
  let foundBindOption :=
    existsb (λ opt, bool_decide (opt = "bind") || bool_decide (opt = "rbind"))
            options in
  let options := if negb foundBindOption then options ++ ["bind"] else options in
  let mnt := {| Mount_Destination := dest; Mount_Type := "bind";
                Mount_Source := source; Mount_Options := options |} in
  initSpec;;
  doc ← loadSpec;
  storeSpec (set_Spec_Mounts (Spec_Mounts doc ++ [mnt]) doc).

(** ** Namespaces *)

Definition Namespaces : list string :=
  ["network"; "pid"; "mount"; "ipc"; "uts"; "user"; "cgroup"].

Definition mapStrToNamespace (ns path : string) : LinuxNamespace * option error :=
  let mk t := ({| LinuxNamespace_Type := t; LinuxNamespace_Path := path |}, None) in
  if bool_decide (ns = "network") then mk NetworkNamespace
  else if bool_decide (ns = "pid") then mk PIDNamespace
  else if bool_decide (ns = "mount") then mk MountNamespace
  else if bool_decide (ns = "ipc") then mk IPCNamespace
  else if bool_decide (ns = "uts") then mk UTSNamespace
  else if bool_decide (ns = "user") then mk UserNamespace
  else if bool_decide (ns = "cgroup") then mk CgroupNamespace
  else ({| LinuxNamespace_Type := ""; LinuxNamespace_Path := "" |},
        Some "Should not reach here!").

Definition ClearLinuxNamespaces : G unit :=
  b ← noLinux;
  if b : bool then mret tt
  else l ← loadLinux; storeLinux (set_Linux_Namespaces [] l).

Definition AddOrReplaceLinuxNamespace (ns path : string) : G (option error) :=
  let '(namespace, err) := mapStrToNamespace ns path in
  match err with
  | Some e => mret (Some e)
  | None =>
      initSpecLinux;;
      l ← loadLinux;
      let nss := Linux_Namespaces l in
      match list_find (λ ns, LinuxNamespace_Type ns
                             = LinuxNamespace_Type namespace) nss with
      | Some (i, _) =>
          storeLinux (set_Linux_Namespaces (<[i := namespace]> nss) l);;
          mret None
      | None =>
          storeLinux (set_Linux_Namespaces (nss ++ [namespace]) l);;
          mret None
      end
  end.

Definition RemoveLinuxNamespace (ns : string) : G (option error) :=
  let '(namespace, err) := mapStrToNamespace ns "" in
  match err with
  | Some e => mret (Some e)
  | None =>
      b ← noLinux;
      if b : bool then mret None
      else
        l ← loadLinux;
        let nss := Linux_Namespaces l in
        match list_find (λ ns, LinuxNamespace_Type ns
                               = LinuxNamespace_Type namespace) nss with
        | Some (i, _) =>
            storeLinux (set_Linux_Namespaces (take i nss ++ drop (S i) nss) l);;
            mret None
        | None => mret None
        end
  end.

(** ** Saving *)

(** Package [encoding/json], as far as [Save] uses it: [json.Marshal] of the
    Linux subtree, and [json.MarshalIndent] of the syscall-filter pointer and
    of the whole document.  The encoder is an external collaborator; the one
    fact kept about it is that a Linux subtree at its zero value, all of
    whose fields are tagged omitempty, encodes as the empty object. *)
Module json.
Class Encoder := {
  Marshal_Linux : Linux → string + error;
  MarshalIndent_Seccomp : option LinuxSeccomp → string + error;
  MarshalIndent_Spec : Spec → string + error;
  Marshal_Linux_zero : Marshal_Linux Linux_zero = inl "{}"
}.
End json.

(** The interface [io.Writer] on a writer state [W]. *)
Module io.
Class Writer (W : Type) := { Write : W → string → W * option error }.
End io.

Section save.
Context `{!json.Encoder} {W : Type} `{!io.Writer W}.

(** The pruning step at the head of [Save]; [Some err] when [Save] has to
    return [err] at once. *)
Definition pruneLinux : G (option error) :=
  doc ← loadSpec;
  match Spec_Linux doc with
  | Some l =>
      match json.Marshal_Linux l with
      | inr err => mret (Some err)
      | inl buf =>
          if bool_decide (buf = "{}")
          then storeSpec (set_Spec_Linux None doc);; mret None
          else mret None
      end
  | None => mret None
  end.

Definition Save (w : W) (exportOpts : ExportOptions) : G (W * option error) :=
  r ← pruneLinux;
  match r with
  | Some err => mret (w, Some err)
  | None =>
      data ← (if Seccomp exportOpts
              then l ← loadLinux;
                   mret (json.MarshalIndent_Seccomp (Linux_Seccomp l))
              else doc ← loadSpec; mret (json.MarshalIndent_Spec doc));
      match data with
      | inr err => mret (w, Some err)
      | inl data => mret (io.Write w data)
      end
  end.
End save.

(** ** Further methods of the generator *)

Definition set_Linux_RootfsPropagation (v : string) (l : Linux) : Linux :=
  {| Linux_UIDMappings := Linux_UIDMappings l;
     Linux_GIDMappings := Linux_GIDMappings l;
     Linux_Sysctl := Linux_Sysctl l; Linux_Resources := Linux_Resources l;
     Linux_CgroupsPath := Linux_CgroupsPath l;
     Linux_Namespaces := Linux_Namespaces l;
     Linux_Devices := Linux_Devices l; Linux_Seccomp := Linux_Seccomp l;
     Linux_RootfsPropagation := v;
     Linux_MaskedPaths := Linux_MaskedPaths l;
     Linux_ReadonlyPaths := Linux_ReadonlyPaths l;
     Linux_MountLabel := Linux_MountLabel l |}.

Definition set_Linux_MaskedPaths (v : list string) (l : Linux) : Linux :=
  {| Linux_UIDMappings := Linux_UIDMappings l;
     Linux_GIDMappings := Linux_GIDMappings l;
     Linux_Sysctl := Linux_Sysctl l; Linux_Resources := Linux_Resources l;
     Linux_CgroupsPath := Linux_CgroupsPath l;
     Linux_Namespaces := Linux_Namespaces l;
     Linux_Devices := Linux_Devices l; Linux_Seccomp := Linux_Seccomp l;
     Linux_RootfsPropagation := Linux_RootfsPropagation l;
     Linux_MaskedPaths := v;
     Linux_ReadonlyPaths := Linux_ReadonlyPaths l;
     Linux_MountLabel := Linux_MountLabel l |}.

Definition set_Linux_ReadonlyPaths (v : list string) (l : Linux) : Linux :=
  {| Linux_UIDMappings := Linux_UIDMappings l;
     Linux_GIDMappings := Linux_GIDMappings l;
     Linux_Sysctl := Linux_Sysctl l; Linux_Resources := Linux_Resources l;
     Linux_CgroupsPath := Linux_CgroupsPath l;
     Linux_Namespaces := Linux_Namespaces l;
     Linux_Devices := Linux_Devices l; Linux_Seccomp := Linux_Seccomp l;
     Linux_RootfsPropagation := Linux_RootfsPropagation l;
     Linux_MaskedPaths := Linux_MaskedPaths l;
     Linux_ReadonlyPaths := v;
     Linux_MountLabel := Linux_MountLabel l |}.

Definition set_Linux_Resources (v : option LinuxResources) (l : Linux) : Linux :=
  {| Linux_UIDMappings := Linux_UIDMappings l;
     Linux_GIDMappings := Linux_GIDMappings l;
     Linux_Sysctl := Linux_Sysctl l; Linux_Resources := v;
     Linux_CgroupsPath := Linux_CgroupsPath l;
     Linux_Namespaces := Linux_Namespaces l;
     Linux_Devices := Linux_Devices l; Linux_Seccomp := Linux_Seccomp l;
     Linux_RootfsPropagation := Linux_RootfsPropagation l;
     Linux_MaskedPaths := Linux_MaskedPaths l;
     Linux_ReadonlyPaths := Linux_ReadonlyPaths l;
     Linux_MountLabel := Linux_MountLabel l |}.

Definition set_LinuxResources_Network (v : option LinuxNetwork) (r : LinuxResources) : LinuxResources :=
  {| LinuxResources_Devices := LinuxResources_Devices r;
     LinuxResources_DisableOOMKiller := LinuxResources_DisableOOMKiller r;
     LinuxResources_OOMScoreAdj := LinuxResources_OOMScoreAdj r;
     LinuxResources_Memory := LinuxResources_Memory r;
     LinuxResources_CPU := LinuxResources_CPU r;
     LinuxResources_Pids := LinuxResources_Pids r;
     LinuxResources_Network := v |}.

Definition set_LinuxNetwork_Priorities (v : list LinuxInterfacePriority) (n : LinuxNetwork) : LinuxNetwork :=
  {| LinuxNetwork_ClassID := LinuxNetwork_ClassID n;
     LinuxNetwork_Priorities := v |}.

(** Go zero values: [rspec.LinuxResources{}] and [rspec.LinuxNetwork{}]. *)
Definition LinuxResources_zero : LinuxResources :=
  {| LinuxResources_Devices := []; LinuxResources_DisableOOMKiller := None;
     LinuxResources_OOMScoreAdj := None; LinuxResources_Memory := None;
     LinuxResources_CPU := None; LinuxResources_Pids := None;
     LinuxResources_Network := None |}.

Definition LinuxNetwork_zero : LinuxNetwork :=
  {| LinuxNetwork_ClassID := None; LinuxNetwork_Priorities := [] |}.

(** Reading and writing through [g.spec.Linux.Resources] and
    [g.spec.Linux.Resources.Network]. *)
Definition loadResources : G LinuxResources :=
  l ← loadLinux; deref (Linux_Resources l).

Definition storeResources (r : LinuxResources) : G unit :=
  l ← loadLinux; _ ← deref (Linux_Resources l);
  storeLinux (set_Linux_Resources (Some r) l).

Definition loadNetwork : G LinuxNetwork :=
  r ← loadResources; deref (LinuxResources_Network r).

Definition storeNetwork (n : LinuxNetwork) : G unit :=
  r ← loadResources; _ ← deref (LinuxResources_Network r);
  storeResources (set_LinuxResources_Network (Some n) r).

(** Modelled from the spec: [initSpecAnnotations], of the missing file of
    package [generate], ensures the document and then its annotation map
    (section 4.1), allocated empty. *)
Definition initSpecAnnotations : G unit :=
  initSpec;;
  doc ← loadSpec;
  match Spec_Annotations doc with
  | None => storeSpec (set_Spec_Annotations (Some ∅) doc)
  | Some _ => mret tt
  end.

(** Modelled from the spec: [initSpecLinuxSysctl], of the same missing file,
    ensures the Linux subtree and then its sysctl map, allocated empty. *)
Definition initSpecLinuxSysctl : G unit :=
  initSpecLinux;;
  l ← loadLinux;
  match Linux_Sysctl l with
  | None => storeLinux (set_Linux_Sysctl (Some ∅) l)
  | Some _ => mret tt
  end.

(** Modelled from the spec: [initSpecLinuxResources], of the same missing
    file, ensures the Linux subtree and then its resources
    ([&rspec.LinuxResources{}]). *)
Definition initSpecLinuxResources : G unit :=
  initSpecLinux;;
  l ← loadLinux;
  match Linux_Resources l with
  | None => storeLinux (set_Linux_Resources (Some LinuxResources_zero) l)
  | Some _ => mret tt
  end.

(** Modelled from the spec: [initSpecLinuxResourcesNetwork], of the same
    missing file, ensures the resources and then their network part
    ([&rspec.LinuxNetwork{}]). *)
Definition initSpecLinuxResourcesNetwork : G unit :=
  initSpecLinuxResources;;
  r ← loadResources;
  match LinuxResources_Network r with
  | None => storeResources (set_LinuxResources_Network (Some LinuxNetwork_zero) r)
  | Some _ => mret tt
  end.

Definition AddAnnotation (key value : string) : G unit :=
  initSpecAnnotations;;
  doc ← loadSpec;
  m ← deref (Spec_Annotations doc);
  storeSpec (set_Spec_Annotations (Some (<[key := value]> m)) doc).



(** [strings.HasPrefix(s, prefix)], a comparison of bytes. *)
Definition HasPrefix (s prefix : string) : bool := String.prefix prefix s.

Definition AddProcessEnv (name value : string) : G unit :=
  initSpec;;
  let env := name +:+ "=" +:+ value in
  doc ← loadSpec;
  let envs := Process_Env (Spec_Process doc) in
  match list_find (λ e, HasPrefix e (name +:+ "=") = true) envs with
  | Some (idx, _) =>
      storeSpec (set_Spec_Process
                   (set_Process_Env (<[idx := env]> envs) (Spec_Process doc))
                   doc)
  | None =>
      storeSpec (set_Spec_Process
                   (set_Process_Env (envs ++ [env]) (Spec_Process doc)) doc)
  end.

Definition AddProcessAdditionalGid (gid : Z) : G unit :=
  initSpec;;
  doc ← loadSpec;
  let gids := User_AdditionalGids (Process_User (Spec_Process doc)) in
  match list_find (λ group, group = gid) gids with
  | Some _ => mret tt
  | None =>
      storeSpec (set_Spec_Process
                   (set_Process_User
                      (set_User_AdditionalGids (gids ++ [gid])
                         (Process_User (Spec_Process doc)))
                      (Spec_Process doc)) doc)
  end.

Definition AddLinuxResourcesNetworkPriorities (name : string) (prio : Z) : G unit :=
  initSpecLinuxResourcesNetwork;;
  n ← loadNetwork;
  let priorities := LinuxNetwork_Priorities n in
  match list_find (λ netPriority, LinuxInterfacePriority_Name netPriority = name)
                  priorities with
  | Some (i, netPriority) =>
      storeNetwork
        (set_LinuxNetwork_Priorities
           (<[i := {| LinuxInterfacePriority_Name :=
                        LinuxInterfacePriority_Name netPriority;
                      LinuxInterfacePriority_Priority := prio |}]> priorities) n)
  | None =>
      let interfacePrio := {| LinuxInterfacePriority_Name := name;
                              LinuxInterfacePriority_Priority := prio |} in
      storeNetwork
        (set_LinuxNetwork_Priorities (priorities ++ [interfacePrio]) n)
  end.

Definition DropLinuxResourcesNetworkPriorities (name : string) : G unit :=
  initSpecLinuxResourcesNetwork;;
  n ← loadNetwork;
  let priorities := LinuxNetwork_Priorities n in
  match list_find (λ netPriority, LinuxInterfacePriority_Name netPriority = name)
                  priorities with
  | Some (i, _) =>
      storeNetwork
        (set_LinuxNetwork_Priorities
           (take i priorities ++ drop (S i) priorities) n)
  | None => mret tt
  end.

Definition AddLinuxSysctl (key value : string) : G unit :=
  initSpecLinuxSysctl;;
  l ← loadLinux;
  m ← deref (Linux_Sysctl l);
  storeLinux (set_Linux_Sysctl (Some (<[key := value]> m)) l).

Definition AddLinuxUIDMapping (hid cid size : Z) : G unit :=
  let idMapping := {| LinuxIDMapping_HostID := hid;
                      LinuxIDMapping_ContainerID := cid;
                      LinuxIDMapping_Size := size |} in
  initSpecLinux;;
  l ← loadLinux;
  storeLinux (set_Linux_UIDMappings (Linux_UIDMappings l ++ [idMapping]) l).

Definition AddLinuxGIDMapping (hid cid size : Z) : G unit :=
  let idMapping := {| LinuxIDMapping_HostID := hid;
                      LinuxIDMapping_ContainerID := cid;
                      LinuxIDMapping_Size := size |} in
  initSpecLinux;;
  l ← loadLinux;
  storeLinux (set_Linux_GIDMappings (Linux_GIDMappings l ++ [idMapping]) l).

(** The [switch] of [SetLinuxRootPropagation]: [true] when it falls out of
    the switch, [false] when the default case returns the error. *)
Definition SetLinuxRootPropagation_switch (rp : string) : bool :=
  if bool_decide (rp = "") then true
  else if bool_decide (rp = "private") then true
  else if bool_decide (rp = "rprivate") then true
  else if bool_decide (rp = "slave") then true
  else if bool_decide (rp = "rslave") then true
  else if bool_decide (rp = "shared") then true
  else if bool_decide (rp = "rshared") then true
  else false.

Definition SetLinuxRootPropagation (rp : string) : G (option error) :=
  if SetLinuxRootPropagation_switch rp then
    initSpecLinux;;
    l ← loadLinux;
    storeLinux (set_Linux_RootfsPropagation rp l);;
    mret None
  else
    mret (Some "rootfs-propagation must be empty or one of private|rprivate|slave|rslave|shared|rshared").

Definition AddPreStartHook (path : string) (args : list string) : G unit :=
  initSpec;;
  let hook := {| Hook_Path := path; Hook_Args := args |} in
  doc ← loadSpec;
  storeSpec (set_Spec_Hooks
               (set_Hooks_Prestart (Hooks_Prestart (Spec_Hooks doc) ++ [hook])
                  (Spec_Hooks doc)) doc).

Definition AddPostStopHook (path : string) (args : list string) : G unit :=
  initSpec;;
  let hook := {| Hook_Path := path; Hook_Args := args |} in
  doc ← loadSpec;
  storeSpec (set_Spec_Hooks
               (set_Hooks_Poststop (Hooks_Poststop (Spec_Hooks doc) ++ [hook])
                  (Spec_Hooks doc)) doc).

Definition AddPostStartHook (path : string) (args : list string) : G unit :=
  initSpec;;
  let hook := {| Hook_Path := path; Hook_Args := args |} in
  doc ← loadSpec;
  storeSpec (set_Spec_Hooks
               (set_Hooks_Poststart (Hooks_Poststart (Spec_Hooks doc) ++ [hook])
                  (Spec_Hooks doc)) doc).

Definition AddLinuxMaskedPaths (path : string) : G unit :=
  initSpecLinux;;
  l ← loadLinux;
  storeLinux (set_Linux_MaskedPaths (Linux_MaskedPaths l ++ [path]) l).

Definition AddLinuxReadonlyPaths (path : string) : G unit :=
  initSpecLinux;;
  l ← loadLinux;
  storeLinux (set_Linux_ReadonlyPaths (Linux_ReadonlyPaths l ++ [path]) l).

(** Package [seccomp], the rule engine the generator delegates to.  Each
    function receives the pointer [g.spec.Linux.Seccomp] and returns an
    error; what it does to the struct behind the pointer is given here as
    the struct it leaves.  [SyscallOpts] is the argument type of
    [ParseSyscallFlag]. *)
Module seccomp.
Class Engine := {
  SyscallOpts : Type;
  ParseSyscallFlag : SyscallOpts → LinuxSeccomp → LinuxSeccomp * option error;
  ParseDefaultAction : string → LinuxSeccomp → LinuxSeccomp * option error;
  ParseDefaultActionForce : string → LinuxSeccomp → LinuxSeccomp * option error;
  ParseArchitectureFlag : string → LinuxSeccomp → LinuxSeccomp * option error;
  RemoveAction : string → LinuxSeccomp → LinuxSeccomp * option error;
  RemoveAllSeccompRules : LinuxSeccomp → LinuxSeccomp * option error
}.
End seccomp.

(** Go zero value: [rspec.LinuxSeccomp{}]. *)
Definition LinuxSeccomp_zero : LinuxSeccomp :=
  {| LinuxSeccomp_DefaultAction := ""; LinuxSeccomp_Architectures := [];
     LinuxSeccomp_Syscalls := [] |}.

(** Modelled from the spec: [initSpecLinuxSeccomp], of the missing file of
    package [generate], ensures the Linux subtree and then its syscall
    filter ([&rspec.LinuxSeccomp{}]). *)
Definition initSpecLinuxSeccomp : G unit :=
  initSpecLinux;;
  l ← loadLinux;
  match Linux_Seccomp l with
  | None => storeLinux (set_Linux_Seccomp (Some LinuxSeccomp_zero) l)
  | Some _ => mret tt
  end.

(** The call [f(..., g.spec.Linux.Seccomp)] of an engine function: the
    pointer is read, the struct behind it is left as the engine leaves it,
    and the engine's error is the value. *)
Definition callSeccomp (f : LinuxSeccomp → LinuxSeccomp * option error) : G (option error) :=
  l ← loadLinux;
  s ← deref (Linux_Seccomp l);
  storeLinux (set_Linux_Seccomp (Some (f s).1) l);;
  mret (f s).2.

Section seccomp_delegation.
Context `{!seccomp.Engine}.

Definition SetSyscallAction (arguments : seccomp.SyscallOpts) : G (option error) :=
  initSpecLinuxSeccomp;;
  callSeccomp (seccomp.ParseSyscallFlag arguments).

Definition SetDefaultSeccompAction (action : string) : G (option error) :=
  initSpecLinuxSeccomp;;
  callSeccomp (seccomp.ParseDefaultAction action).

Definition SetDefaultSeccompActionForce (action : string) : G (option error) :=
  initSpecLinuxSeccomp;;
  callSeccomp (seccomp.ParseDefaultActionForce action).

Definition SetSeccompArchitecture (architecture : string) : G (option error) :=
  initSpecLinuxSeccomp;;
  callSeccomp (seccomp.ParseArchitectureFlag architecture).

Definition RemoveSeccompRule (arguments : string) : G (option error) :=
  initSpecLinuxSeccomp;;
  callSeccomp (seccomp.RemoveAction arguments).

Definition RemoveAllSeccompRules : G (option error) :=
  initSpecLinuxSeccomp;;
  callSeccomp seccomp.RemoveAllSeccompRules.
End seccomp_delegation.

(** ** Concrete collaborators, for running the model *)

(** [strings.ToUpper] on ASCII text: the letters a..z are mapped to A..Z and
    every other byte is kept. *)
Definition ascii_ToUpper (c : ascii) : ascii :=
  let n := nat_of_ascii c in
  if (97 <=? n)%nat && (n <=? 122)%nat then ascii_of_nat (n - 32) else c.

Fixpoint string_ToUpper (s : string) : string :=
  match s with
  | EmptyString => EmptyString
  | String c s' => String (ascii_ToUpper c) (string_ToUpper s')
  end.

Definition ascii_strings : strings.Pkg := {| strings.ToUpper := string_ToUpper |}.

(** Modelled from the spec: package [capability] is an external collaborator
    (section 6, CapabilityRegistry contract: an ordered sequence of capability
    tokens and a last supported index).  This table is the registry of the
    Linux capabilities, numbered from 0, with the lower-case names that
    [Cap.String()] prints. *)
Definition linux_cap_names : list string :=
  ["chown"; "dac_override"; "dac_read_search"; "fowner"; "fsetid"; "kill";
   "setgid"; "setuid"; "setpcap"; "linux_immutable"; "net_bind_service";
   "net_broadcast"; "net_admin"; "net_raw"; "ipc_lock"; "ipc_owner";
   "sys_module"; "sys_rawio"; "sys_chroot"; "sys_ptrace"; "sys_pacct";
   "sys_admin"; "sys_boot"; "sys_nice"; "sys_resource"; "sys_time";
   "sys_tty_config"; "mknod"; "lease"; "audit_write"; "audit_control";
   "setfcap"; "mac_override"; "mac_admin"; "syslog"; "wake_alarm";
   "block_suspend"; "audit_read"].

Definition linux_registry (last : capability.Cap) : capability.Registry :=
  {| capability.List := Z.of_nat <$> seq 0 (length linux_cap_names);
     capability.String cap := default "unknown" (linux_cap_names !! Z.to_nat cap);
     capability.CAP_LAST_CAP := last;
     capability.CAP_BLOCK_SUSPEND := 36%Z |}.

(** An encoder with the omitempty behaviour of the Linux subtree: the empty
    object exactly when every field is empty. *)
Definition Linux_isEmpty (l : Linux) : bool :=
  bool_decide (length (Linux_UIDMappings l) = 0)
  && bool_decide (length (Linux_GIDMappings l) = 0)
  && bool_decide (size (default ∅ (Linux_Sysctl l)) = 0)
  && bool_decide (is_Some (Linux_Resources l) → False)
  && bool_decide (Linux_CgroupsPath l = "")
  && bool_decide (length (Linux_Namespaces l) = 0)
  && bool_decide (length (Linux_Devices l) = 0)
  && bool_decide (is_Some (Linux_Seccomp l) → False)
  && bool_decide (Linux_RootfsPropagation l = "")
  && bool_decide (length (Linux_MaskedPaths l) = 0)
  && bool_decide (length (Linux_ReadonlyPaths l) = 0)
  && bool_decide (Linux_MountLabel l = "").

Definition sample_encoder : json.Encoder :=
  {| json.Marshal_Linux l := inl (if Linux_isEmpty l then "{}" else "{...}");
     json.MarshalIndent_Seccomp p :=
       inl (match p with None => "null" | Some _ => "{...}" end);
     json.MarshalIndent_Spec _ := inl "{...}";
     json.Marshal_Linux_zero := eq_refl |}.

(** A writer that records what it is given and never fails. *)
Definition buffer_writer : io.Writer (list string) :=
  {| io.Write w data := (w ++ [data], None) |}.

(** The registry of a host that supports every listed capability, and of one
    whose last supported capability is [block_suspend]. *)
Definition linux_caps : capability.Registry := linux_registry 37%Z.
Definition linux_caps_36 : capability.Registry := linux_registry 36%Z.

(** ** Reading a generator

    Shorthands used to state what a method leaves behind. *)

(** The document and the Linux subtree a method works on once the missing
    ancestors have been allocated. *)
Definition docOf (g : Generator) : Spec := default Spec_zero (spec g).
Definition linuxOf (g : Generator) : Linux := default Linux_zero (Spec_Linux (docOf g)).

(** The generator [g] after [g.spec] has been made to point to [doc]. *)
Definition withDoc (doc : Spec) (g : Generator) : Generator :=
  {| spec := Some doc; HostSpecific := HostSpecific g |}.

Definition rlimitsOf (g : Generator) : list LinuxRlimit :=
  Process_Rlimits (Spec_Process (docOf g)).

Definition withRlimits (rls : list LinuxRlimit) (g : Generator) : Generator :=
  withDoc (set_Spec_Process
             (set_Process_Rlimits rls (Spec_Process (docOf g))) (docOf g)) g.

Definition namespacesOf (g : Generator) : list LinuxNamespace :=
  Linux_Namespaces (linuxOf g).

Definition withNamespaces (nss : list LinuxNamespace) (g : Generator) : Generator :=
  withDoc (set_Spec_Linux (Some (set_Linux_Namespaces nss (linuxOf g)))
             (docOf g)) g.

Definition capsOf (g : Generator) : list string :=
  Process_Capabilities (Spec_Process (docOf g)).

Definition withCaps (caps : list string) (g : Generator) : Generator :=
  withDoc (set_Spec_Process
             (set_Process_Capabilities caps (Spec_Process (docOf g)))
             (docOf g)) g.

(** The capability list of privileged mode: every registry entry, dropped
    when the generator is host-specific and the entry lies above [lastCap],
    printed as "CAP_" followed by its upper-cased name. *)
Definition privilegedCaps `{!strings.Pkg} `{!capability.Registry}
    (hostSpecific : bool) : list string :=
  (λ cap, "CAP_" +:+ strings.ToUpper (capability.String cap))
    <$> filter (λ cap, hostSpecific = true → (cap ≤ lastCap)%Z) capability.List.

(** The option list [AddBindMount] stores, told from the caller's list. *)
Definition bindOptions (opts : list string) : list string :=
  match opts with
  | [] => ["rw"; "bind"]
  | _ => if decide ("bind" ∈ opts ∨ "rbind" ∈ opts) then opts
         else opts ++ ["bind"]
  end.

(** The generator after its process part, or its Linux subtree, has been
    rewritten by [f], the missing ancestors allocated first. *)
Definition withProcess (f : Process → Process) (g : Generator) : Generator :=
  withDoc (set_Spec_Process (f (Spec_Process (docOf g))) (docOf g)) g.

Definition withLinux (f : Linux → Linux) (g : Generator) : Generator :=
  withDoc (set_Spec_Linux (Some (f (linuxOf g))) (docOf g)) g.

Definition envOf (g : Generator) : list string :=
  Process_Env (Spec_Process (docOf g)).

Definition gidsOf (g : Generator) : list Z :=
  User_AdditionalGids (Process_User (Spec_Process (docOf g))).

Definition withGids (gids : list Z) (g : Generator) : Generator :=
  withProcess (λ p, set_Process_User
                      (set_User_AdditionalGids gids (Process_User p)) p) g.

Definition mountsOf (g : Generator) : list Mount := Spec_Mounts (docOf g).

Definition hooksOf (g : Generator) : Hooks := Spec_Hooks (docOf g).

(** A nil map reads as the empty map. *)
Definition annotationsOf (g : Generator) : gmap string string :=
  default ∅ (Spec_Annotations (docOf g)).

Definition sysctlOf (g : Generator) : gmap string string :=
  default ∅ (Linux_Sysctl (linuxOf g)).

Definition resourcesOf (g : Generator) : LinuxResources :=
  default LinuxResources_zero (Linux_Resources (linuxOf g)).

Definition networkOf (g : Generator) : LinuxNetwork :=
  default LinuxNetwork_zero (LinuxResources_Network (resourcesOf g)).

Definition prioritiesOf (g : Generator) : list LinuxInterfacePriority :=
  LinuxNetwork_Priorities (networkOf g).

Definition withPriorities (ps : list LinuxInterfacePriority) (g : Generator) : Generator :=
  withLinux (set_Linux_Resources
               (Some (set_LinuxResources_Network
                        (Some (set_LinuxNetwork_Priorities ps (networkOf g)))
                        (resourcesOf g)))) g.

(** The entries the appending methods build from their arguments. *)
Definition mkIDMapping (m : Z * Z * Z) : LinuxIDMapping :=
  {| LinuxIDMapping_HostID := m.1.1; LinuxIDMapping_ContainerID := m.1.2;
     LinuxIDMapping_Size := m.2 |}.

Definition mkTmpfs (m : string * list string) : Mount :=
  {| Mount_Destination := m.1; Mount_Type := "tmpfs"; Mount_Source := "tmpfs";
     Mount_Options := m.2 |}.

Definition mkHook (h : string * list string) : Hook :=
  {| Hook_Path := h.1; Hook_Args := h.2 |}.

(** An engine for running the model: it rejects the action "bogus" and
    otherwise records the default action; removing all rules empties the
    rule list. *)
Definition sample_engine : seccomp.Engine :=
  let setDefault action s :=
    if bool_decide (action = "bogus") then (s, Some "invalid action")
    else ({| LinuxSeccomp_DefaultAction := action;
             LinuxSeccomp_Architectures := LinuxSeccomp_Architectures s;
             LinuxSeccomp_Syscalls := LinuxSeccomp_Syscalls s |}, None) in
  {| seccomp.SyscallOpts := string;
     seccomp.ParseSyscallFlag _ s := (s, None);
     seccomp.ParseDefaultAction := setDefault;
     seccomp.ParseDefaultActionForce := setDefault;
     seccomp.ParseArchitectureFlag _ s := (s, None);
     seccomp.RemoveAction _ s := (s, None);
     seccomp.RemoveAllSeccompRules s :=
       ({| LinuxSeccomp_DefaultAction := LinuxSeccomp_DefaultAction s;
           LinuxSeccomp_Architectures := LinuxSeccomp_Architectures s;
           LinuxSeccomp_Syscalls := [] |}, None) |}.

(** The syscall filter an engine function is handed: the one in place, or a
    fresh zero value. *)
Definition seccompOf (g : Generator) : LinuxSeccomp :=
  default LinuxSeccomp_zero (Linux_Seccomp (linuxOf g)).

(** The generator a method leaves behind, whether it returned or panicked. *)
Definition stateOf {A : Type} (o : outcome A) : Generator :=
  match o with
  | Returned _ g => g
  | Panicked g => g
  end.

(** Calling the methods of a list one after the other. *)
Fixpoint runAll (ms : list (G unit)) : G unit :=
  match ms with
  | [] => mret tt
  | m :: ms' => m;; runAll ms'
  end.

(** * Properties *)

(** ** Running the monad *)

(** Unfold the primitive computations of [G], leaving the case analyses on
    the pointers they read. *)
Ltac unfold_G :=
  cbv [mbind mret G_bind G_ret getHostSpecific getSpecPtr setSpecPtr deref
       loadSpec storeSpec loadLinux storeLinux initSpec initSpecLinux noLinux].

(** ** Mounts *)

Lemma existsb_bind (opts : list string) :
  existsb (λ opt, bool_decide (opt = "bind") || bool_decide (opt = "rbind")) opts
  = bool_decide ("bind" ∈ opts ∨ "rbind" ∈ opts).
Proof.
  apply eq_true_iff_eq. rewrite existsb_exists, bool_decide_eq_true. split.
  - intros (opt & Hin%list_elem_of_In & Hopt).
    apply orb_true_iff in Hopt as [Hopt|Hopt];
      apply bool_decide_eq_true in Hopt; subst; auto.
  - intros [Hin|Hin]; apply list_elem_of_In in Hin; eauto.
Qed.

(** C5: [AddBindMount] appends exactly one mount of type "bind" after the
    mounts already there, which it keeps in order.  Its options are the
    caller's when they hold "bind" or "rbind", the caller's followed by
    "bind" when they hold neither, and ["rw"; "bind"] when the caller gave
    none. *)
Theorem AddBindMount_appends (source dest : string) (opts : list string) (g : Generator) :
  AddBindMount source dest opts g
  = Returned tt
      (withDoc (set_Spec_Mounts
                  (Spec_Mounts (docOf g)
                   ++ [ {| Mount_Destination := dest; Mount_Type := "bind";
                           Mount_Source := source;
                           Mount_Options := bindOptions opts |} ])
                  (docOf g)) g)
  ∧ bindOptions [] = ["rw"; "bind"]
  ∧ bindOptions opts
    = (if decide (opts = []) then ["rw"; "bind"]
       else if decide ("bind" ∈ opts ∨ "rbind" ∈ opts) then opts
       else opts ++ ["bind"]).
Proof.
  split; [|split; [done|by destruct opts]].
  assert (Hopt :
    (let options := if bool_decide (length opts = 0) then ["rw"] else opts in
     if negb (existsb (λ opt, bool_decide (opt = "bind")
                              || bool_decide (opt = "rbind")) options)
     then options ++ ["bind"] else options) = bindOptions opts).
  { destruct opts as [|o opts]; [done|].
    cbn [length bindOptions]. rewrite bool_decide_eq_false_2 by done.
    cbv zeta. rewrite existsb_bind.
    destruct (decide _) as [H|H].
    - by rewrite bool_decide_eq_true_2.
    - by rewrite bool_decide_eq_false_2. }
  unfold AddBindMount. cbv zeta in Hopt |- *. rewrite Hopt.
  by destruct g as [[doc|] hs].
Qed.

Lemma AddBindMount_appends_witness :
  let g := {| spec := None; HostSpecific := false |} in
  let mounted opts g :=
    match AddBindMount "/src" "/dst" opts g with
    | Returned _ g' => Mount_Options <$> Spec_Mounts (docOf g')
    | Panicked _ => []
    end in
  mounted [] g = [["rw"; "bind"]]
  ∧ mounted ["rbind"; "ro"] g = [["rbind"; "ro"]]
  ∧ mounted ["ro"] g = [["ro"; "bind"]].
Proof.
  intros g mounted. unfold mounted.
  destruct (AddBindMount_appends "/src" "/dst" [] g) as [-> _].
  destruct (AddBindMount_appends "/src" "/dst" ["rbind"; "ro"] g) as [-> _].
  destruct (AddBindMount_appends "/src" "/dst" ["ro"] g) as [-> _].
  split_and!; reflexivity.
Defined.

(** C6: [AddCgroupsMount] does nothing and succeeds on "no"; on "ro" and
    "rw" it succeeds and appends the one cgroup mount, whose last option is
    the mode; on any other string it returns an error and leaves the
    generator as it was. *)
Theorem AddCgroupsMount_modes (mode : string) (g : Generator) :
  (mode = "no" → AddCgroupsMount mode g = Returned None g)
  ∧ (mode = "ro" ∨ mode = "rw" →
     AddCgroupsMount mode g
     = Returned None
         (withDoc (set_Spec_Mounts
                     (Spec_Mounts (docOf g)
                      ++ [ {| Mount_Destination := "/sys/fs/cgroup";
                              Mount_Type := "cgroup"; Mount_Source := "cgroup";
                              Mount_Options := ["nosuid"; "noexec"; "nodev";
                                                "relatime"; mode] |} ])
                     (docOf g)) g))
  ∧ (mode ≠ "no" → mode ≠ "ro" → mode ≠ "rw" →
     AddCgroupsMount mode g
     = Returned (Some "--mount-cgroups should be one of (ro,rw,no)") g).
Proof.
  unfold AddCgroupsMount, AddCgroupsMount_switch. split_and!.
  - by intros ->.
  - by intros [-> | ->]; destruct g as [[doc|] hs].
  - intros Hno Hro Hrw. by rewrite !bool_decide_eq_false_2.
Qed.

Lemma AddCgroupsMount_modes_witness :
  let g := {| spec := None; HostSpecific := false |} in
  AddCgroupsMount "no" g = Returned None g
  ∧ (∃ g', AddCgroupsMount "ro" g = Returned None g'
           ∧ Mount_Options <$> Spec_Mounts (docOf g')
             = [["nosuid"; "noexec"; "nodev"; "relatime"; "ro"]])
  ∧ AddCgroupsMount "bogus" g
    = Returned (Some "--mount-cgroups should be one of (ro,rw,no)") g.
Proof.
  intros g. destruct (AddCgroupsMount_modes "no" g) as (Hno & _ & _).
  destruct (AddCgroupsMount_modes "ro" g) as (_ & Hro & _).
  destruct (AddCgroupsMount_modes "bogus" g) as (_ & _ & Hbad).
  split_and!.
  - by apply Hno.
  - eexists. split; [apply Hro; by left|reflexivity].
  - by apply Hbad.
Defined.

(** ** Keyed sequences: the first entry with a given key *)

Section first_match.
Context {A : Type} (P : A → Prop) `{!∀ x, Decision (P x)}.

(** The loop [for i, x := range l { if P(x) { ... return } }] stops at the
    entry that follows the longest prefix without a match. *)
Lemma list_find_first (l1 l2 : list A) (x : A) :
  Forall (λ y, ¬ P y) l1 → P x →
  list_find P (l1 ++ x :: l2) = Some (length l1, x).
Proof.
  intros Hl1 Hx. induction Hl1 as [|y l1 Hy _ IH]; simpl.
  - by rewrite decide_True.
  - by rewrite decide_False, IH.
Qed.

Lemma list_find_none (l : list A) :
  Forall (λ y, ¬ P y) l → list_find P l = None.
Proof. apply list_find_None. Qed.

Lemma first_match_split (l : list A) :
  Forall (λ y, ¬ P y) l
  ∨ ∃ l1 x l2, l = l1 ++ x :: l2 ∧ P x ∧ Forall (λ y, ¬ P y) l1.
Proof.
  induction l as [|y l [IH|(l1 & x & l2 & -> & Hx & Hl1)]].
  - by left.
  - destruct (decide (P y)) as [Hy|Hy].
    + right. by exists [], y, l.
    + left. by constructor.
  - right. destruct (decide (P y)) as [Hy|Hy].
    + by exists [], y, (l1 ++ x :: l2).
    + exists (y :: l1), x, l2. split_and!; [done..|]. by constructor.
Qed.

(** [append(l[:i], l[i+1:]...)] at the first match. *)
Lemma take_drop_first (l1 l2 : list A) (x : A) :
  take (length l1) (l1 ++ x :: l2) ++ drop (S (length l1)) (l1 ++ x :: l2)
  = l1 ++ l2.
Proof.
  rewrite take_app_length. f_equal.
  induction l1 as [|z l1 IH]; [done|apply IH].
Qed.

(** [l[i] = y] at the first match. *)
Lemma insert_first (l1 l2 : list A) (x y : A) :
  <[length l1 := y]> (l1 ++ x :: l2) = l1 ++ y :: l2.
Proof. by rewrite insert_app_r_alt, Nat.sub_diag by lia. Qed.
End first_match.

(** ** Rlimits *)

Lemma rlimitsOf_withRlimits rls g : rlimitsOf (withRlimits rls g) = rls.
Proof. reflexivity. Qed.

Lemma AddProcessRlimits_run (rType : string) (rHard rSoft : Z) (g : Generator) :
  AddProcessRlimits rType rHard rSoft g
  = Returned tt
      (withRlimits
         (match list_find (λ rlimit, LinuxRlimit_Type rlimit = rType)
                          (rlimitsOf g) with
          | Some (i, rlimit) =>
              <[i := {| LinuxRlimit_Type := LinuxRlimit_Type rlimit;
                        LinuxRlimit_Hard := rHard;
                        LinuxRlimit_Soft := rSoft |}]> (rlimitsOf g)
          | None =>
              rlimitsOf g ++ [ {| LinuxRlimit_Type := rType;
                                  LinuxRlimit_Hard := rHard;
                                  LinuxRlimit_Soft := rSoft |} ]
          end) g).
Proof.
  destruct g as [[doc|] hs]; [|done].
  unfold AddProcessRlimits, rlimitsOf. unfold_G. cbn [spec docOf default].
  by destruct (list_find _ _) as [[i r]|].
Qed.

Lemma RemoveProcessRlimits_run (rType : string) (g : Generator) :
  RemoveProcessRlimits rType g
  = Returned None
      (match list_find (λ rlimit, LinuxRlimit_Type rlimit = rType)
                       (rlimitsOf g) with
       | Some (i, _) =>
           withRlimits (take i (rlimitsOf g) ++ drop (S i) (rlimitsOf g)) g
       | None => g
       end).
Proof.
  destruct g as [[doc|] hs]; [|done].
  unfold RemoveProcessRlimits, rlimitsOf. unfold_G. cbn [spec docOf default].
  by destruct (list_find _ _) as [[i r]|].
Qed.

(** C7: [AddProcessRlimits] overwrites the hard and soft values of the first
    entry of the given type where it stands, and appends a new entry when
    there is none, so a sequence with at most one entry per type stays so;
    [RemoveProcessRlimits] deletes the first entry of the type, changes
    nothing when there is none, and returns no error either way. *)
Theorem rlimits_upsert_remove (t : string) (hard soft : Z) (g : Generator) :
  let new := {| LinuxRlimit_Type := t; LinuxRlimit_Hard := hard;
                LinuxRlimit_Soft := soft |} in
  (∀ l1 r l2,
     rlimitsOf g = l1 ++ r :: l2 → LinuxRlimit_Type r = t →
     Forall (λ r', LinuxRlimit_Type r' ≠ t) l1 →
     AddProcessRlimits t hard soft g
     = Returned tt (withRlimits (l1 ++ new :: l2) g)
     ∧ RemoveProcessRlimits t g = Returned None (withRlimits (l1 ++ l2) g))
  ∧ (Forall (λ r', LinuxRlimit_Type r' ≠ t) (rlimitsOf g) →
     AddProcessRlimits t hard soft g
     = Returned tt (withRlimits (rlimitsOf g ++ [new]) g)
     ∧ RemoveProcessRlimits t g = Returned None g)
  ∧ (NoDup (LinuxRlimit_Type <$> rlimitsOf g) →
     ∃ g', AddProcessRlimits t hard soft g = Returned tt g'
           ∧ NoDup (LinuxRlimit_Type <$> rlimitsOf g'))
  ∧ (∃ g', RemoveProcessRlimits t g = Returned None g').
Proof.
  intros new.
  assert (Hfound : ∀ l1 r l2,
    rlimitsOf g = l1 ++ r :: l2 → LinuxRlimit_Type r = t →
    Forall (λ r', LinuxRlimit_Type r' ≠ t) l1 →
    AddProcessRlimits t hard soft g
    = Returned tt (withRlimits (l1 ++ new :: l2) g)
    ∧ RemoveProcessRlimits t g = Returned None (withRlimits (l1 ++ l2) g)).
  { intros l1 r l2 Hl Hr Hl1.
    rewrite AddProcessRlimits_run, RemoveProcessRlimits_run, Hl.
    rewrite (list_find_first (λ rlimit, LinuxRlimit_Type rlimit = t))
      by done.
    by rewrite insert_first, take_drop_first, Hr. }
  assert (Hfresh : Forall (λ r', LinuxRlimit_Type r' ≠ t) (rlimitsOf g) →
    AddProcessRlimits t hard soft g
    = Returned tt (withRlimits (rlimitsOf g ++ [new]) g)
    ∧ RemoveProcessRlimits t g = Returned None g).
  { intros Hnone.
    rewrite AddProcessRlimits_run, RemoveProcessRlimits_run.
    by rewrite (list_find_none (λ rlimit, LinuxRlimit_Type rlimit = t)). }
  split_and!; [done..| |].
  - intros Hnodup.
    destruct (first_match_split (λ r, LinuxRlimit_Type r = t) (rlimitsOf g))
      as [Hnone|(l1 & r & l2 & Hl & Hr & Hl1)].
    + destruct (Hfresh Hnone) as [-> _]. eexists. split; [done|].
      rewrite rlimitsOf_withRlimits, fmap_app. apply NoDup_app.
      split_and!; [done| |apply NoDup_singleton].
      intros t' (r' & -> & Hin)%list_elem_of_fmap Ht%list_elem_of_singleton.
      by eapply (proj1 (Forall_forall _ _) Hnone).
    + destruct (Hfound l1 r l2 Hl Hr Hl1) as [-> _]. eexists. split; [done|].
      rewrite rlimitsOf_withRlimits. rewrite Hl in Hnodup.
      by rewrite fmap_app, fmap_cons in Hnodup |- *; simpl; rewrite <- Hr.
  - rewrite RemoveProcessRlimits_run. eauto.
Qed.

Lemma rlimits_upsert_remove_witness :
  let nofile n := {| LinuxRlimit_Type := "RLIMIT_NOFILE";
                     LinuxRlimit_Hard := n; LinuxRlimit_Soft := n |} in
  let core := {| LinuxRlimit_Type := "RLIMIT_CORE";
                 LinuxRlimit_Hard := 0%Z; LinuxRlimit_Soft := 0%Z |} in
  let g := withRlimits [core; nofile 1024%Z] {| spec := None; HostSpecific := false |} in
  AddProcessRlimits "RLIMIT_NOFILE" 2048%Z 2048%Z g
  = Returned tt (withRlimits [core; nofile 2048%Z] g)
  ∧ RemoveProcessRlimits "RLIMIT_NOFILE" g
    = Returned None (withRlimits [core] g)
  ∧ AddProcessRlimits "RLIMIT_NPROC" 7%Z 7%Z g
    = Returned tt (withRlimits [core; nofile 1024%Z;
                                {| LinuxRlimit_Type := "RLIMIT_NPROC";
                                   LinuxRlimit_Hard := 7%Z;
                                   LinuxRlimit_Soft := 7%Z |}] g)
  ∧ RemoveProcessRlimits "RLIMIT_NPROC" g = Returned None g
  ∧ (∃ g', AddProcessRlimits "RLIMIT_NOFILE" 2048%Z 2048%Z g = Returned tt g'
           ∧ NoDup (LinuxRlimit_Type <$> rlimitsOf g')).
Proof.
  intros nofile core g.
  destruct (rlimits_upsert_remove "RLIMIT_NOFILE" 2048%Z 2048%Z g)
    as (Hfound & _ & Hnodup & _).
  destruct (rlimits_upsert_remove "RLIMIT_NPROC" 7%Z 7%Z g)
    as (_ & Hfresh & _ & _).
  destruct (Hfound [core] (nofile 1024%Z) []) as [Hadd Hremove].
  { reflexivity. }
  { reflexivity. }
  { repeat constructor. discriminate. }
  destruct Hfresh as [Hadd' Hremove'].
  { repeat constructor; discriminate. }
  split_and!; [exact Hadd|exact Hremove|exact Hadd'|exact Hremove'|].
  apply Hnodup. apply (bool_decide_unpack _). vm_compute. exact I.
Defined.

(** ** Namespaces *)

Lemma namespacesOf_withNamespaces nss g :
  namespacesOf (withNamespaces nss g) = nss.
Proof. reflexivity. Qed.

Lemma mapStrToNamespace_known (k path : string) :
  k ∈ Namespaces →
  mapStrToNamespace k path
  = ({| LinuxNamespace_Type := k; LinuxNamespace_Path := path |}, None).
Proof.
  unfold Namespaces. rewrite !elem_of_cons, elem_of_nil.
  by intros [->|[->|[->|[->|[->|[->|[->|[]]]]]]]].
Qed.

Lemma mapStrToNamespace_unknown (k path : string) :
  k ∉ Namespaces →
  mapStrToNamespace k path
  = ({| LinuxNamespace_Type := ""; LinuxNamespace_Path := "" |},
     Some "Should not reach here!").
Proof.
  unfold Namespaces. rewrite !not_elem_of_cons. intros (?&?&?&?&?&?&?&_).
  unfold mapStrToNamespace. by rewrite !bool_decide_eq_false_2.
Qed.

Lemma AddOrReplaceLinuxNamespace_run (k path : string) (g : Generator) :
  k ∈ Namespaces →
  let namespace := {| LinuxNamespace_Type := k; LinuxNamespace_Path := path |} in
  AddOrReplaceLinuxNamespace k path g
  = Returned None
      (withNamespaces
         (match list_find (λ ns, LinuxNamespace_Type ns = k) (namespacesOf g) with
          | Some (i, _) => <[i := namespace]> (namespacesOf g)
          | None => namespacesOf g ++ [namespace]
          end) g).
Proof.
  intros Hk namespace. unfold AddOrReplaceLinuxNamespace.
  rewrite (mapStrToNamespace_known _ _ Hk).
  destruct g as [[[? ? ? ? ? ? ? ? [l|]]|] hs]; [|done..].
  unfold namespacesOf, linuxOf, docOf. unfold_G. cbn.
  by destruct (list_find _ _) as [[i n]|].
Qed.

Lemma RemoveLinuxNamespace_run (k : string) (g : Generator) :
  k ∈ Namespaces →
  RemoveLinuxNamespace k g
  = Returned None
      (match list_find (λ ns, LinuxNamespace_Type ns = k) (namespacesOf g) with
       | Some (i, _) =>
           withNamespaces (take i (namespacesOf g)
                           ++ drop (S i) (namespacesOf g)) g
       | None => g
       end).
Proof.
  intros Hk. unfold RemoveLinuxNamespace.
  rewrite (mapStrToNamespace_known _ _ Hk).
  destruct g as [[[? ? ? ? ? ? ? ? [l|]]|] hs]; [|done..].
  unfold namespacesOf, linuxOf, docOf. unfold_G. cbn.
  by destruct (list_find _ _) as [[i n]|].
Qed.

(** C3: a kind outside the seven recognised ones makes both
    [AddOrReplaceLinuxNamespace] and [RemoveLinuxNamespace] return an error
    with the generator untouched, and a recognised kind never does; with a
    recognised kind, [RemoveLinuxNamespace] succeeds and changes nothing
    when no entry has that kind, in particular when the document or its
    Linux subtree is absent. *)
Theorem namespace_kind_validation (k path : string) (g : Generator) :
  (k ∉ Namespaces →
     AddOrReplaceLinuxNamespace k path g
     = Returned (Some "Should not reach here!") g
     ∧ RemoveLinuxNamespace k g = Returned (Some "Should not reach here!") g)
  ∧ (k ∈ Namespaces →
     (∃ g', AddOrReplaceLinuxNamespace k path g = Returned None g')
     ∧ (∃ g', RemoveLinuxNamespace k g = Returned None g'))
  ∧ (k ∈ Namespaces →
     Forall (λ n, LinuxNamespace_Type n ≠ k) (namespacesOf g) →
     RemoveLinuxNamespace k g = Returned None g)
  ∧ (k ∈ Namespaces →
     spec g = None ∨ (∃ doc, spec g = Some doc ∧ Spec_Linux doc = None) →
     RemoveLinuxNamespace k g = Returned None g).
Proof.
  split_and!.
  - intros Hk. unfold AddOrReplaceLinuxNamespace, RemoveLinuxNamespace.
    by rewrite !(mapStrToNamespace_unknown _ _ Hk).
  - intros Hk. rewrite AddOrReplaceLinuxNamespace_run by done.
    rewrite RemoveLinuxNamespace_run by done. eauto.
  - intros Hk Hnone. rewrite RemoveLinuxNamespace_run by done.
    by rewrite (list_find_none (λ ns, LinuxNamespace_Type ns = k)).
  - intros Hk Habsent. rewrite RemoveLinuxNamespace_run by done.
    assert (namespacesOf g = []) as ->; [|done].
    unfold namespacesOf, linuxOf, docOf.
    destruct Habsent as [->|(doc & -> & Hl)]; [done|]. simpl. by rewrite Hl.
Qed.

Lemma namespace_kind_validation_witness :
  let pid := {| LinuxNamespace_Type := "pid"; LinuxNamespace_Path := "" |} in
  let g := withNamespaces [pid] {| spec := None; HostSpecific := false |} in
  let g0 := {| spec := Some Spec_zero; HostSpecific := false |} in
  AddOrReplaceLinuxNamespace "net" "/proc/1/ns/net" g
  = Returned (Some "Should not reach here!") g
  ∧ RemoveLinuxNamespace "net" g = Returned (Some "Should not reach here!") g
  ∧ (∃ g', AddOrReplaceLinuxNamespace "network" "/proc/1/ns/net" g
           = Returned None g')
  ∧ RemoveLinuxNamespace "network" g = Returned None g
  ∧ RemoveLinuxNamespace "pid" g0 = Returned None g0.
Proof.
  intros pid g g0.
  assert (Hnet : "net" ∉ Namespaces) by (apply (bool_decide_unpack _); exact I).
  assert (Hnetwork : "network" ∈ Namespaces)
    by (apply (bool_decide_unpack _); exact I).
  assert (Hpid : "pid" ∈ Namespaces) by (apply (bool_decide_unpack _); exact I).
  destruct (namespace_kind_validation "net" "/proc/1/ns/net" g)
    as (Hbad & _ & _ & _).
  destruct (namespace_kind_validation "network" "/proc/1/ns/net" g)
    as (_ & Hgood & Hnone & _).
  destruct (namespace_kind_validation "pid" "" g0) as (_ & _ & _ & Habsent).
  destruct (Hbad Hnet) as [Hadd Hremove].
  destruct (Hgood Hnetwork) as [Hadd' _].
  split_and!; [exact Hadd|exact Hremove|exact Hadd'| |].
  - apply Hnone; [exact Hnetwork|]. repeat constructor. discriminate.
  - apply Habsent; [exact Hpid|]. right. by exists Spec_zero.
Defined.

Lemma filter_none {A} (P : A → Prop) `{!∀ x, Decision (P x)} (l : list A) :
  Forall (λ y, ¬ P y) l → filter P l = [].
Proof.
  induction 1 as [|y l Hy _ IH]; [done|]. by rewrite filter_cons_False.
Qed.

Lemma filter_only {A} (P : A → Prop) `{!∀ x, Decision (P x)} (l1 l2 : list A) x :
  Forall (λ y, ¬ P y) l1 → P x → Forall (λ y, ¬ P y) l2 →
  filter P (l1 ++ x :: l2) = [x].
Proof.
  intros Hl1 Hx Hl2.
  by rewrite filter_app, filter_cons_True, !filter_none by done.
Qed.

(** C4: for a recognised kind, [AddOrReplaceLinuxNamespace] overwrites the
    first entry of that kind where it stands, and appends the new entry when
    there is none; from a sequence with at most one entry per kind, two
    calls with the same kind leave exactly one entry of that kind, carrying
    the second path. *)
Theorem AddOrReplaceLinuxNamespace_upsert (k p : string) (g : Generator) :
  k ∈ Namespaces →
  let new p := {| LinuxNamespace_Type := k; LinuxNamespace_Path := p |} in
  (∀ l1 n l2,
     namespacesOf g = l1 ++ n :: l2 → LinuxNamespace_Type n = k →
     Forall (λ n', LinuxNamespace_Type n' ≠ k) l1 →
     AddOrReplaceLinuxNamespace k p g
     = Returned None (withNamespaces (l1 ++ new p :: l2) g))
  ∧ (Forall (λ n', LinuxNamespace_Type n' ≠ k) (namespacesOf g) →
     AddOrReplaceLinuxNamespace k p g
     = Returned None (withNamespaces (namespacesOf g ++ [new p]) g))
  ∧ (NoDup (LinuxNamespace_Type <$> namespacesOf g) →
     ∀ p2, ∃ g1 g2,
       AddOrReplaceLinuxNamespace k p g = Returned None g1
       ∧ AddOrReplaceLinuxNamespace k p2 g1 = Returned None g2
       ∧ filter (λ n, LinuxNamespace_Type n = k) (namespacesOf g2) = [new p2]
       ∧ NoDup (LinuxNamespace_Type <$> namespacesOf g2)).
Proof.
  intros Hk new.
  assert (Hfound : ∀ q g l1 n l2,
    namespacesOf g = l1 ++ n :: l2 → LinuxNamespace_Type n = k →
    Forall (λ n', LinuxNamespace_Type n' ≠ k) l1 →
    AddOrReplaceLinuxNamespace k q g
    = Returned None (withNamespaces (l1 ++ new q :: l2) g)).
  { intros q g' l1 n l2 Hl Hn Hl1.
    rewrite AddOrReplaceLinuxNamespace_run, Hl by done.
    rewrite (list_find_first (λ ns, LinuxNamespace_Type ns = k)) by done.
    by rewrite insert_first. }
  assert (Hfresh : ∀ q g,
    Forall (λ n', LinuxNamespace_Type n' ≠ k) (namespacesOf g) →
    AddOrReplaceLinuxNamespace k q g
    = Returned None (withNamespaces (namespacesOf g ++ [new q]) g)).
  { intros q g' Hnone. rewrite AddOrReplaceLinuxNamespace_run by done.
    by rewrite (list_find_none (λ ns, LinuxNamespace_Type ns = k)). }
  split_and!; [by apply Hfound|by apply Hfresh|].
  intros Hnodup p2.
  assert (∃ l1 l2,
    AddOrReplaceLinuxNamespace k p g
    = Returned None (withNamespaces (l1 ++ new p :: l2) g)
    ∧ Forall (λ n', LinuxNamespace_Type n' ≠ k) l1
    ∧ Forall (λ n', LinuxNamespace_Type n' ≠ k) l2
    ∧ NoDup (LinuxNamespace_Type <$> (l1 ++ new p :: l2)))
    as (l1 & l2 & Hfirst & Hl1 & Hl2 & Hnodup').
  { destruct (first_match_split (λ n, LinuxNamespace_Type n = k) (namespacesOf g))
      as [Hnone|(l1 & n & l2 & Hl & Hn & Hl1)].
    - exists (namespacesOf g), []. split_and!; [by apply Hfresh|done|done|].
      rewrite fmap_app. apply NoDup_app. split_and!; [done| |apply NoDup_singleton].
      intros t' (n' & -> & Hin)%list_elem_of_fmap Ht%list_elem_of_singleton.
      by eapply (proj1 (Forall_forall _ _) Hnone).
    - exists l1, l2. rewrite Hl in Hnodup.
      rewrite fmap_app, fmap_cons, Hn in Hnodup.
      split_and!; [by eapply Hfound|done| |by rewrite fmap_app, fmap_cons].
      apply NoDup_app in Hnodup as (_ & _ & [Hnotin _]%NoDup_cons).
      apply Forall_forall. intros n' Hin Hn'. apply Hnotin.
      apply list_elem_of_fmap. by exists n'. }
  eexists _, _. split; [exact Hfirst|].
  split; [by eapply (Hfound p2 _ l1 (new p) l2)|].
  rewrite namespacesOf_withNamespaces. split.
  - by apply (filter_only (λ n, LinuxNamespace_Type n = k)).
  - by rewrite fmap_app, fmap_cons in Hnodup' |- *.
Qed.

Lemma AddOrReplaceLinuxNamespace_upsert_witness :
  let ns t p := {| LinuxNamespace_Type := t; LinuxNamespace_Path := p |} in
  let g := withNamespaces [ns "pid" ""; ns "network" ""; ns "ipc" ""]
             {| spec := None; HostSpecific := false |} in
  AddOrReplaceLinuxNamespace "network" "/run/netns/a" g
  = Returned None
      (withNamespaces [ns "pid" ""; ns "network" "/run/netns/a"; ns "ipc" ""] g)
  ∧ AddOrReplaceLinuxNamespace "user" "" g
    = Returned None
        (withNamespaces [ns "pid" ""; ns "network" ""; ns "ipc" "";
                         ns "user" ""] g)
  ∧ ∃ g1 g2,
      AddOrReplaceLinuxNamespace "network" "/run/netns/a" g = Returned None g1
      ∧ AddOrReplaceLinuxNamespace "network" "/run/netns/b" g1 = Returned None g2
      ∧ filter (λ n, LinuxNamespace_Type n = "network") (namespacesOf g2)
        = [ns "network" "/run/netns/b"]
      ∧ NoDup (LinuxNamespace_Type <$> namespacesOf g2).
Proof.
  intros ns g.
  assert (Hnetwork : "network" ∈ Namespaces)
    by (apply (bool_decide_unpack _); exact I).
  assert (Huser : "user" ∈ Namespaces) by (apply (bool_decide_unpack _); exact I).
  destruct (AddOrReplaceLinuxNamespace_upsert "network" "/run/netns/a" g Hnetwork)
    as (Hfound & _ & Htwice).
  destruct (AddOrReplaceLinuxNamespace_upsert "user" "" g Huser)
    as (_ & Hfresh & _).
  split_and!.
  - apply (Hfound [ns "pid" ""] (ns "network" "") [ns "ipc" ""]);
      [reflexivity|reflexivity|]. repeat constructor. discriminate.
  - apply Hfresh. repeat constructor; discriminate.
  - apply Htwice. apply (bool_decide_unpack _). vm_compute. exact I.
Defined.

(** ** Capabilities *)

Section capability_facts.
Context `{!strings.Pkg} `{!capability.Registry}.

(** The three ways out of [checkCap], told from the registry: no entry
    has the token's upper-cased name; the first entry that has it lies
    above [lastCap] on a host-specific generator; or it does not. *)
Lemma checkCap_unknown (c : string) (hostSpecific : bool) :
  Forall (λ cap, strings.ToUpper c ≠ strings.ToUpper (capability.String cap))
         capability.List →
  checkCap c hostSpecific = Some "Invalid value passed for adding capability".
Proof.
  intros Hnone. unfold checkCap.
  by rewrite (list_find_none
    (λ cap, strings.ToUpper c = strings.ToUpper (capability.String cap))).
Qed.

Lemma checkCap_known (c : string) (hostSpecific : bool) l1 cap l2 :
  capability.List = l1 ++ cap :: l2 →
  Forall (λ cap', strings.ToUpper c
                  ≠ strings.ToUpper (capability.String cap')) l1 →
  strings.ToUpper c = strings.ToUpper (capability.String cap) →
  checkCap c hostSpecific
  = if hostSpecific && bool_decide (lastCap < cap)%Z
    then Some ("CAP_" +:+ strings.ToUpper c
               +:+ " is not supported on the current host")
    else None.
Proof.
  intros Hl Hl1 Hcap. unfold checkCap. rewrite Hl.
  by rewrite (list_find_first
    (λ cap, strings.ToUpper c = strings.ToUpper (capability.String cap))).
Qed.

Lemma AddProcessCapability_run (c : string) (g : Generator) :
  AddProcessCapability c g
  = match checkCap c (HostSpecific g) with
    | Some err => Returned (Some err) g
    | None =>
        Returned None
          (match list_find (λ cap, strings.ToUpper cap
                                   = "CAP_" +:+ strings.ToUpper c)
                           (capsOf g) with
           | Some _ => withDoc (docOf g) g
           | None => withCaps (capsOf g ++ ["CAP_" +:+ strings.ToUpper c]) g
           end)
    end.
Proof.
  unfold AddProcessCapability. unfold_G. cbv zeta.
  destruct (checkCap c (HostSpecific g)) as [err|]; [done|].
  destruct g as [[doc|] hs]; unfold capsOf, docOf; cbn; [|done].
  by destruct (list_find _ _) as [[i cap]|].
Qed.

Lemma DropProcessCapability_run (c : string) (g : Generator) :
  DropProcessCapability c g
  = match checkCap c (HostSpecific g) with
    | Some err => Returned (Some err) g
    | None =>
        Returned None
          (match list_find (λ cap, strings.ToUpper cap
                                   = "CAP_" +:+ strings.ToUpper c)
                           (capsOf g) with
           | Some (i, _) =>
               withCaps (take i (capsOf g) ++ drop (S i) (capsOf g)) g
           | None => withDoc (docOf g) g
           end)
    end.
Proof.
  unfold DropProcessCapability. unfold_G. cbv zeta.
  destruct (checkCap c (HostSpecific g)) as [err|]; [done|].
  destruct g as [[doc|] hs]; unfold capsOf, docOf; cbn; [|done].
  by destruct (list_find _ _) as [[i cap]|].
Qed.

Lemma finalCapList_privilegedCaps (hostSpecific : bool) (l : list capability.Cap) acc :
  foldl (λ acc cap,
           if hostSpecific && bool_decide (lastCap < cap)%Z then acc
           else acc ++ ["CAP_" +:+ strings.ToUpper (capability.String cap)])
        acc l
  = acc ++ ((λ cap, "CAP_" +:+ strings.ToUpper (capability.String cap))
              <$> filter (λ cap, hostSpecific = true → (cap ≤ lastCap)%Z) l).
Proof.
  revert acc. induction l as [|cap l IH]; intros acc; cbn [foldl].
  - by rewrite app_nil_r.
  - rewrite IH. destruct hostSpecific; cbn [andb].
    + case_bool_decide.
      * rewrite filter_cons_False; [done|]. intros Hle. specialize (Hle eq_refl). lia.
      * rewrite filter_cons_True by (intros _; lia).
        by rewrite fmap_cons, <- app_assoc.
    + rewrite filter_cons_True by done.
      by rewrite fmap_cons, <- app_assoc.
Qed.

Lemma SetupPrivileged_run (g : Generator) :
  SetupPrivileged true g
  = Returned tt
      (withDoc
         (set_Spec_Linux (Some (set_Linux_Seccomp None (linuxOf g)))
            (set_Spec_Process
               (set_Process_ApparmorProfile ""
                  (set_Process_SelinuxLabel ""
                     (set_Process_Capabilities
                        (privilegedCaps (HostSpecific g))
                        (Spec_Process (docOf g)))))
               (docOf g))) g).
Proof.
  unfold SetupPrivileged. unfold_G. cbv zeta.
  rewrite finalCapList_privilegedCaps. fold (privilegedCaps (HostSpecific g)).
  generalize (privilegedCaps (HostSpecific g)). intros caps.
  by destruct g as [[[? ? ? ? ? ? ? ? [l|]]|] hs].
Qed.
End capability_facts.

(** C1, as the claim states it, fails: a token that already carries the
    prefix is not accepted.  After "chown" and "CHOWN" have been added,
    adding "CAP_CHOWN" returns an error. *)
Lemma AddProcessCapability_prefixed_rejected :
  let Add := @AddProcessCapability ascii_strings linux_caps in
  let g0 := {| spec := None; HostSpecific := false |} in
  ∃ g1, Add "chown" g0 = Returned None g1
        ∧ Add "CHOWN" g1 = Returned None g1
        ∧ Add "CAP_CHOWN" g1
          = Returned (Some "Invalid value passed for adding capability") g1.
Proof.
  exists (withCaps ["CAP_CHOWN"] {| spec := None; HostSpecific := false |}).
  split_and!; reflexivity.
Qed.

(** C1, amended: [AddProcessCapability] validates the token, without any
    prefix, against the upper-cased registry names and returns the error of
    [checkCap] with the generator untouched when that fails; otherwise it
    upper-cases the token and always puts "CAP_" in front; when an entry of
    the list equals that string once upper-cased, the call succeeds and
    changes nothing; when none does, the string is appended after the
    entries already there.  On the Linux registry, adding "chown" and then
    "CHOWN" succeeds twice and leaves the single entry "CAP_CHOWN", and
    adding "CAP_CHOWN" is rejected and leaves that list as it is. *)
Theorem AddProcessCapability_upper_prefixed :
  (∀ (S : strings.Pkg) (R : capability.Registry) (c : string) (g : Generator),
     let cp := "CAP_" +:+ strings.ToUpper c in
     (∀ err, checkCap c (HostSpecific g) = Some err →
             AddProcessCapability c g = Returned (Some err) g)
     ∧ (checkCap c (HostSpecific g) = None →
        Exists (λ cap, strings.ToUpper cap = cp) (capsOf g) →
        AddProcessCapability c g = Returned None g)
     ∧ (checkCap c (HostSpecific g) = None →
        Forall (λ cap, strings.ToUpper cap ≠ cp) (capsOf g) →
        AddProcessCapability c g
        = Returned None (withCaps (capsOf g ++ [cp]) g)))
  ∧ (let Add := @AddProcessCapability ascii_strings linux_caps in
     let g0 := {| spec := None; HostSpecific := false |} in
     let g1 := withCaps ["CAP_CHOWN"] g0 in
     Add "chown" g0 = Returned None g1
     ∧ Add "CHOWN" g1 = Returned None g1
     ∧ capsOf g1 = ["CAP_CHOWN"]
     ∧ ∃ err, Add "CAP_CHOWN" g1 = Returned (Some err) g1).
Proof.
  split.
  - intros S R c g cp. subst cp. set (cp := "CAP_" +:+ strings.ToUpper c).
    pose proof (AddProcessCapability_run c g) as Hrun. fold cp in Hrun.
    split_and!.
    + intros err Herr. by rewrite Hrun, Herr.
    + intros Hok Hpresent. rewrite Hrun, Hok.
      apply Exists_exists in Hpresent as (cap & Hin & Hcap).
      destruct (list_find_elem_of (λ cap, strings.ToUpper cap = cp)
                  (capsOf g) cap Hin Hcap) as [[i cap'] ->].
      destruct g as [[doc|] hs]; [done|]. by apply elem_of_nil in Hin.
    + intros Hok Habsent. rewrite Hrun, Hok.
      by rewrite (list_find_none (λ cap, strings.ToUpper cap = cp)).
  - split_and!; [reflexivity..|].
    by exists "Invalid value passed for adding capability".
Qed.

Lemma AddProcessCapability_upper_prefixed_witness :
  let Add := @AddProcessCapability ascii_strings linux_caps in
  let g0 := {| spec := None; HostSpecific := true |} in
  let g1 := withCaps ["CAP_CHOWN"] g0 in
  Add "Chown" g1 = Returned None g1
  ∧ Add "net_raw" g1 = Returned None (withCaps ["CAP_CHOWN"; "CAP_NET_RAW"] g0)
  ∧ Add "cap_chown" g1
    = Returned (Some "Invalid value passed for adding capability") g1.
Proof.
  intros Add g0 g1.
  destruct AddProcessCapability_upper_prefixed as [Hgen _].
  destruct (Hgen ascii_strings linux_caps "Chown" g1) as (_ & Hpresent & _).
  destruct (Hgen ascii_strings linux_caps "net_raw" g1) as (_ & _ & Habsent).
  destruct (Hgen ascii_strings linux_caps "cap_chown" g1) as (Herr & _ & _).
  split_and!.
  - apply Hpresent; [reflexivity|]. by apply Exists_cons_hd.
  - apply Habsent; [reflexivity|]. repeat constructor. discriminate.
  - apply Herr. reflexivity.
Defined.

(** C2, as the claim states it, fails: the Linux subtree is none of the four
    fields, and [SetupPrivileged(true)] changes it from absent to present
    when it was absent. *)
Lemma SetupPrivileged_allocates_Linux :
  let g := {| spec := Some Spec_zero; HostSpecific := false |} in
  ∃ doc', @SetupPrivileged ascii_strings linux_caps true g
          = Returned tt (withDoc doc' g)
          ∧ Spec_Linux Spec_zero = None
          ∧ Spec_Linux doc' = Some Linux_zero.
Proof.
  exists (set_Spec_Linux (Some Linux_zero)
            (set_Spec_Process
               (set_Process_Capabilities
                  (@privilegedCaps ascii_strings linux_caps false) Process_zero)
               Spec_zero)).
  split_and!; reflexivity.
Qed.

(** C2, amended: [SetupPrivileged(false)] changes nothing.
    [SetupPrivileged(true)] first allocates the document and its Linux
    subtree with zero values where they are absent, then replaces the
    capability list by the registry's capabilities (those not above
    [lastCap] when the generator is host-specific, each as "CAP_" and the
    upper-cased name), sets the SELinux label and the AppArmor profile to
    the empty string and the syscall filter to nil; every other field keeps
    its value, so on a document whose Linux subtree is present nothing but
    these four fields is modified. *)
Theorem SetupPrivileged_unconfines
    (S : strings.Pkg) (R : capability.Registry) (g : Generator) :
  let unconfined doc l :=
    set_Spec_Linux (Some (set_Linux_Seccomp None l))
      (set_Spec_Process
         (set_Process_ApparmorProfile ""
            (set_Process_SelinuxLabel ""
               (set_Process_Capabilities (privilegedCaps (HostSpecific g))
                  (Spec_Process doc))))
         doc) in
  SetupPrivileged false g = Returned tt g
  ∧ SetupPrivileged true g
    = Returned tt (withDoc (unconfined (docOf g) (linuxOf g)) g)
  ∧ (∀ doc l, spec g = Some doc → Spec_Linux doc = Some l →
     SetupPrivileged true g = Returned tt (withDoc (unconfined doc l) g))
  ∧ (∀ doc, spec g = Some doc → Spec_Linux doc = None →
     SetupPrivileged true g = Returned tt (withDoc (unconfined doc Linux_zero) g))
  ∧ (spec g = None →
     SetupPrivileged true g
     = Returned tt (withDoc (unconfined Spec_zero Linux_zero) g)).
Proof.
  intros unconfined. split_and!; [done|apply SetupPrivileged_run|..].
  - intros doc l Hdoc Hl. rewrite SetupPrivileged_run.
    unfold linuxOf, docOf. rewrite Hdoc. simpl. by rewrite Hl.
  - intros doc Hdoc Hl. rewrite SetupPrivileged_run.
    unfold linuxOf, docOf. rewrite Hdoc. simpl. by rewrite Hl.
  - intros Hdoc. rewrite SetupPrivileged_run.
    unfold linuxOf, docOf. by rewrite Hdoc.
Qed.

Lemma SetupPrivileged_unconfines_witness :
  let l := set_Linux_Seccomp
             (Some {| LinuxSeccomp_DefaultAction := "SCMP_ACT_ERRNO";
                      LinuxSeccomp_Architectures := [];
                      LinuxSeccomp_Syscalls := [] |})
             (set_Linux_Namespaces
                [ {| LinuxNamespace_Type := "pid"; LinuxNamespace_Path := "" |} ]
                Linux_zero) in
  let doc := set_Spec_Linux (Some l)
               (set_Spec_Process
                  (set_Process_SelinuxLabel "system_u:system_r:svirt_lxc_net_t:s0"
                     (set_Process_Capabilities ["CAP_KILL"] Process_zero))
                  Spec_zero) in
  let g := {| spec := Some doc; HostSpecific := true |} in
  ∃ g', @SetupPrivileged ascii_strings linux_caps_36 true g = Returned tt g'
        ∧ length (capsOf g') = 37
        ∧ last (capsOf g') = Some "CAP_BLOCK_SUSPEND"
        ∧ Process_SelinuxLabel (Spec_Process (docOf g')) = ""
        ∧ Linux_Seccomp (linuxOf g') = None
        ∧ namespacesOf g' = namespacesOf g.
Proof.
  intros l doc g.
  destruct (SetupPrivileged_unconfines ascii_strings linux_caps_36 g)
    as (_ & _ & Hpresent & _).
  eexists. split; [apply (Hpresent doc l); reflexivity|].
  split_and!; reflexivity.
Defined.

(** C9: [DropProcessCapability] validates before it removes.  A token whose
    upper-cased form is the upper-cased name of no registry entry makes it
    return an error and leave the generator untouched, and so does, on a
    host-specific generator, a token naming a registry entry above
    [lastCap]; this holds whatever the capability list contains, also when
    an entry matching the token is in it. *)
Theorem DropProcessCapability_validates
    (S : strings.Pkg) (R : capability.Registry) (c : string) (g : Generator) :
  (Forall (λ cap, strings.ToUpper c ≠ strings.ToUpper (capability.String cap))
          capability.List →
   DropProcessCapability c g
   = Returned (Some "Invalid value passed for adding capability") g)
  ∧ (∀ l1 cap l2,
       capability.List = l1 ++ cap :: l2 →
       Forall (λ cap', strings.ToUpper c
                       ≠ strings.ToUpper (capability.String cap')) l1 →
       strings.ToUpper c = strings.ToUpper (capability.String cap) →
       HostSpecific g = true → (lastCap < cap)%Z →
       DropProcessCapability c g
       = Returned (Some ("CAP_" +:+ strings.ToUpper c
                         +:+ " is not supported on the current host")) g).
Proof.
  split.
  - intros Hunknown.
    by rewrite DropProcessCapability_run, checkCap_unknown.
  - intros l1 cap l2 Hl Hl1 Hcap Hhs Hlast.
    rewrite DropProcessCapability_run, (checkCap_known c _ l1 cap l2) by done.
    by rewrite Hhs, bool_decide_eq_true_2.
Qed.

Lemma DropProcessCapability_validates_witness :
  let Drop := @DropProcessCapability ascii_strings linux_caps_36 in
  let g := withCaps ["CAP_BOGUS"; "CAP_AUDIT_READ"]
             {| spec := None; HostSpecific := true |} in
  Drop "bogus" g = Returned (Some "Invalid value passed for adding capability") g
  ∧ Drop "audit_read" g
    = Returned (Some "CAP_AUDIT_READ is not supported on the current host") g
  ∧ capsOf g = ["CAP_BOGUS"; "CAP_AUDIT_READ"].
Proof.
  intros Drop g.
  destruct (DropProcessCapability_validates
              ascii_strings linux_caps_36 "bogus" g) as [Hunknown _].
  destruct (DropProcessCapability_validates
              ascii_strings linux_caps_36 "audit_read" g) as [_ Hunsupported].
  split_and!; [| |reflexivity].
  - apply Hunknown. apply (bool_decide_unpack _). vm_compute. exact I.
  - apply (Hunsupported (Z.of_nat <$> seq 0 37) 37%Z []);
      [reflexivity| |reflexivity|reflexivity|reflexivity].
    apply (bool_decide_unpack _). vm_compute. exact I.
Defined.

(** What sets [DropProcessCapability] apart from the clearing methods: with
    a valid token it allocates a document that was nil. *)
Remark DropProcessCapability_allocates :
  @DropProcessCapability ascii_strings linux_caps "kill"
    {| spec := None; HostSpecific := false |}
  = Returned None {| spec := Some Spec_zero; HostSpecific := false |}.
Proof. reflexivity. Qed.

(** ** Saving *)

(** C8: [Save] with the Seccomp export toggle set panics on a nil pointer,
    rather than returning an error, whenever the Linux subtree of the
    document is absent, and also when it is present and encodes as the empty
    object, as its zero value does: the pruning step has then just set it
    to nil. *)
Theorem Save_seccomp_without_Linux
    (E : json.Encoder) (W : Type) (Wr : io.Writer W) (w : W) (g : Generator) :
  let exportOpts := {| Seccomp := true |} in
  (∀ doc, spec g = Some doc → Spec_Linux doc = None →
     Save w exportOpts g = Panicked g)
  ∧ (∀ doc l, spec g = Some doc → Spec_Linux doc = Some l →
     json.Marshal_Linux l = inl "{}" →
     Save w exportOpts g = Panicked (withDoc (set_Spec_Linux None doc) g))
  ∧ (∀ doc, spec g = Some doc → Spec_Linux doc = Some Linux_zero →
     Save w exportOpts g = Panicked (withDoc (set_Spec_Linux None doc) g))
  ∧ (spec g = None → Save w exportOpts g = Panicked g).
Proof.
  intros exportOpts.
  assert (Hpruned : ∀ doc l, spec g = Some doc → Spec_Linux doc = Some l →
    json.Marshal_Linux l = inl "{}" →
    Save w exportOpts g = Panicked (withDoc (set_Spec_Linux None doc) g)).
  { intros doc l Hdoc Hl Hempty. destruct g as [p hs]. simpl in Hdoc. subst p.
    destruct doc as [? ? ? ? ? ? ? ? lin]. simpl in Hl. subst lin.
    unfold Save, pruneLinux. unfold_G. cbn. by rewrite Hempty. }
  split_and!; [|done| |].
  - intros doc Hdoc Hl. destruct g as [p hs]. simpl in Hdoc. subst p.
    destruct doc as [? ? ? ? ? ? ? ? lin]. simpl in Hl. by subst lin.
  - intros doc Hdoc Hl. apply (Hpruned doc Linux_zero Hdoc Hl).
    apply json.Marshal_Linux_zero.
  - intros Hdoc. destruct g as [p hs]. simpl in Hdoc. by subst p.
Qed.

Lemma Save_seccomp_without_Linux_witness :
  let save := @Save sample_encoder (list string) buffer_writer [] {| Seccomp := true |} in
  let g doc := {| spec := Some doc; HostSpecific := false |} in
  let sysctl := set_Spec_Linux (Some (set_Linux_Sysctl (Some ∅) Linux_zero)) Spec_zero in
  save (g Spec_zero) = Panicked (g Spec_zero)
  ∧ save (g (set_Spec_Linux (Some Linux_zero) Spec_zero)) = Panicked (g Spec_zero)
  ∧ save (g sysctl) = Panicked (g Spec_zero)
  ∧ save {| spec := None; HostSpecific := false |}
    = Panicked {| spec := None; HostSpecific := false |}.
Proof.
  intros save g sysctl.
  destruct (Save_seccomp_without_Linux sample_encoder (list string)
              buffer_writer [] (g Spec_zero)) as (Habsent & _ & _ & _).
  destruct (Save_seccomp_without_Linux sample_encoder (list string)
              buffer_writer [] (g (set_Spec_Linux (Some Linux_zero) Spec_zero)))
    as (_ & _ & Hzero & _).
  destruct (Save_seccomp_without_Linux sample_encoder (list string)
              buffer_writer [] (g sysctl)) as (_ & Hempty & _ & _).
  destruct (Save_seccomp_without_Linux sample_encoder (list string)
              buffer_writer [] {| spec := None; HostSpecific := false |})
    as (_ & _ & _ & Hnil).
  split_and!.
  - apply (Habsent Spec_zero); reflexivity.
  - apply (Hzero (set_Spec_Linux (Some Linux_zero) Spec_zero)); reflexivity.
  - apply (Hempty sysctl (set_Linux_Sysctl (Some ∅) Linux_zero)); reflexivity.
  - apply Hnil. reflexivity.
Defined.

(** With a syscall filter in place the same call returns what the writer
    returns: the panic is tied to the absent subtree, not to the toggle. *)
Remark Save_seccomp_with_filter :
  let filter := {| LinuxSeccomp_DefaultAction := "SCMP_ACT_ALLOW";
                   LinuxSeccomp_Architectures := [];
                   LinuxSeccomp_Syscalls := [] |} in
  let g := {| spec := Some (set_Spec_Linux
                              (Some (set_Linux_Seccomp (Some filter) Linux_zero))
                              Spec_zero);
              HostSpecific := false |} in
  @Save sample_encoder (list string) buffer_writer [] {| Seccomp := true |} g
  = Returned (["{...}"], None) g.
Proof. reflexivity. Qed.

(** ** Clearing and removing on a nil document *)

(** C10: on a generator whose document pointer is nil, each clearing and
    removing method returns normally, without a panic and without an error,
    and leaves the pointer nil. *)
Theorem clear_remove_on_nil_document (hostSpecific : bool) :
  let g := {| spec := None; HostSpecific := hostSpecific |} in
  ClearProcessCapabilities g = Returned tt g
  ∧ ClearProcessRlimits g = Returned tt g
  ∧ (∀ rType, RemoveProcessRlimits rType g = Returned None g)
  ∧ ClearProcessEnv g = Returned tt g
  ∧ ClearProcessAdditionalGids g = Returned tt g
  ∧ ClearAnnotations g = Returned tt g
  ∧ (∀ key, RemoveAnnotation key g = Returned tt g)
  ∧ ClearLinuxNamespaces g = Returned tt g
  ∧ (∀ ns, ns ∈ Namespaces → RemoveLinuxNamespace ns g = Returned None g)
  ∧ ClearLinuxSysctl g = Returned tt g
  ∧ (∀ key, RemoveLinuxSysctl key g = Returned tt g)
  ∧ ClearLinuxUIDMappings g = Returned tt g
  ∧ ClearLinuxGIDMappings g = Returned tt g
  ∧ ClearPreStartHooks g = Returned tt g
  ∧ ClearPostStopHooks g = Returned tt g
  ∧ ClearPostStartHooks g = Returned tt g.
Proof.
  intros g. split_and!; try done.
  intros ns Hns. unfold RemoveLinuxNamespace.
  by rewrite (mapStrToNamespace_known _ _ Hns).
Qed.

Lemma clear_remove_on_nil_document_witness :
  let g := {| spec := None; HostSpecific := false |} in
  RemoveLinuxNamespace "cgroup" g = Returned None g
  ∧ RemoveProcessRlimits "RLIMIT_NOFILE" g = Returned None g
  ∧ ClearAnnotations g = Returned tt g
  ∧ spec g = None.
Proof.
  intros g.
  destruct (clear_remove_on_nil_document false)
    as (_ & _ & Hrlimit & _ & _ & Hannot & _ & _ & Hns & _).
  split_and!; [|apply Hrlimit|exact Hannot|reflexivity].
  apply Hns. apply (bool_decide_unpack _). exact I.
Defined.

(** * Further properties *)

(** ** Environment *)

Lemma HasPrefix_append (p s : string) : HasPrefix (p +:+ s) p = true.
Proof.
  unfold HasPrefix. induction p as [|c p IH]; [by destruct s|].
  change (String c p +:+ s) with (String c (p +:+ s)). cbn [String.prefix].
  by destruct (Ascii.ascii_dec c c).
Qed.

Lemma string_append_assoc (a b c : string) : (a +:+ b) +:+ c = a +:+ (b +:+ c).
Proof.
  induction a as [|x a IH]; [done|].
  change ((String x a +:+ b) +:+ c) with (String x ((a +:+ b) +:+ c)).
  change (String x a +:+ (b +:+ c)) with (String x (a +:+ (b +:+ c))).
  by rewrite IH.
Qed.

Lemma filter_nil_Forall {A} (P : A → Prop) `{!∀ x, Decision (P x)} (l : list A) :
  filter P l = [] → Forall (λ y, ¬ P y) l.
Proof.
  induction l as [|y l IH]; [done|]. destruct (decide (P y)) as [Hy|Hy].
  - by rewrite filter_cons_True.
  - rewrite filter_cons_False by done. intros Hl. constructor; auto.
Qed.

Lemma AddProcessEnv_run (name value : string) (g : Generator) :
  AddProcessEnv name value g
  = Returned tt
      (withProcess
         (set_Process_Env
            (match list_find (λ e, HasPrefix e (name +:+ "=") = true)
                             (envOf g) with
             | Some (idx, _) => <[idx := name +:+ "=" +:+ value]> (envOf g)
             | None => envOf g ++ [name +:+ "=" +:+ value]
             end)) g).
Proof.
  destruct g as [[doc|] hs]; [|done].
  unfold AddProcessEnv, envOf, docOf. unfold_G. cbn.
  by destruct (list_find _ _) as [[i e]|].
Qed.

Lemma envOf_withProcess l g : envOf (withProcess (set_Process_Env l) g) = l.
Proof. reflexivity. Qed.

(** X1: [AddProcessEnv] replaces, where it stands, the first entry that
    starts with the name followed by "=", and appends "name=value" when no
    entry does.  Afterwards "name=value" is in the environment, and when at
    most one entry started with "name=" before, exactly one does after. *)
Theorem AddProcessEnv_upsert (name value : string) (g : Generator) :
  let env := name +:+ "=" +:+ value in
  let key e := HasPrefix e (name +:+ "=") = true in
  (∀ l1 e l2,
     envOf g = l1 ++ e :: l2 → key e → Forall (λ e', ¬ key e') l1 →
     AddProcessEnv name value g
     = Returned tt (withProcess (set_Process_Env (l1 ++ env :: l2)) g))
  ∧ (Forall (λ e', ¬ key e') (envOf g) →
     AddProcessEnv name value g
     = Returned tt (withProcess (set_Process_Env (envOf g ++ [env])) g))
  ∧ (∃ g', AddProcessEnv name value g = Returned tt g'
           ∧ env ∈ envOf g'
           ∧ (length (filter key (envOf g)) ≤ 1 →
              filter key (envOf g') = [env])).
Proof.
  intros env key.
  assert (Hkey : key env).
  { unfold key, env. rewrite <- string_append_assoc. apply HasPrefix_append. }
  assert (Hfound : ∀ l1 e l2,
    envOf g = l1 ++ e :: l2 → key e → Forall (λ e', ¬ key e') l1 →
    AddProcessEnv name value g
    = Returned tt (withProcess (set_Process_Env (l1 ++ env :: l2)) g)).
  { intros l1 e l2 Hl He Hl1. rewrite AddProcessEnv_run, Hl.
    rewrite (list_find_first key) by done. by rewrite insert_first. }
  assert (Hfresh : Forall (λ e', ¬ key e') (envOf g) →
    AddProcessEnv name value g
    = Returned tt (withProcess (set_Process_Env (envOf g ++ [env])) g)).
  { intros Hnone. rewrite AddProcessEnv_run.
    by rewrite (list_find_none key). }
  split_and!; [done..|].
  destruct (first_match_split key (envOf g))
    as [Hnone|(l1 & e & l2 & Hl & He & Hl1)].
  - eexists. split; [by apply Hfresh|]. rewrite envOf_withProcess. split.
    + apply elem_of_app. right. by apply list_elem_of_singleton.
    + intros _. by apply (filter_only key).
  - eexists. split; [by eapply Hfound|]. rewrite envOf_withProcess. split.
    + apply elem_of_app. right. by left.
    + rewrite Hl, filter_app, (filter_none key l1), filter_cons_True by done.
      intros Hlen. apply (filter_only key); [done..|].
      apply (filter_nil_Forall key). apply nil_length_inv.
      simpl in Hlen. lia.
Qed.

Lemma AddProcessEnv_upsert_witness :
  let g := withProcess (set_Process_Env ["PATH=/bin"; "TERM=xterm"])
             {| spec := None; HostSpecific := false |} in
  AddProcessEnv "TERM" "dumb" g
  = Returned tt (withProcess (set_Process_Env ["PATH=/bin"; "TERM=dumb"]) g)
  ∧ AddProcessEnv "HOME" "/" g
    = Returned tt
        (withProcess (set_Process_Env ["PATH=/bin"; "TERM=xterm"; "HOME=/"]) g)
  ∧ AddProcessEnv "TER" "x" g
    = Returned tt
        (withProcess (set_Process_Env ["PATH=/bin"; "TERM=xterm"; "TER=x"]) g).
Proof.
  intros g.
  destruct (AddProcessEnv_upsert "TERM" "dumb" g) as (Hfound & _ & _).
  destruct (AddProcessEnv_upsert "HOME" "/" g) as (_ & Hfresh & _).
  destruct (AddProcessEnv_upsert "TER" "x" g) as (_ & Hfresh' & _).
  split_and!.
  - apply (Hfound ["PATH=/bin"] "TERM=xterm" []); [reflexivity..|].
    repeat constructor. discriminate.
  - apply Hfresh. repeat constructor; discriminate.
  - apply Hfresh'. repeat constructor; discriminate.
Defined.

(** ** Additional gids *)

Lemma AddProcessAdditionalGid_run (gid : Z) (g : Generator) :
  AddProcessAdditionalGid gid g
  = Returned tt
      (match list_find (λ group, group = gid) (gidsOf g) with
       | Some _ => withDoc (docOf g) g
       | None => withGids (gidsOf g ++ [gid]) g
       end).
Proof.
  destruct g as [[doc|] hs]; [|done].
  unfold AddProcessAdditionalGid, gidsOf, docOf. unfold_G. cbn.
  by destruct (list_find _ _) as [[i e]|].
Qed.

Lemma gidsOf_withGids l g : gidsOf (withGids l g) = l.
Proof. reflexivity. Qed.

(** X2: [AddProcessAdditionalGid] leaves the generator as it is when the gid
    is already listed and appends it otherwise; afterwards the gid is
    listed, a list without repetition stays without repetition, and a
    second call with the same gid changes nothing. *)
Theorem AddProcessAdditionalGid_once (gid : Z) (g : Generator) :
  (gid ∈ gidsOf g → AddProcessAdditionalGid gid g = Returned tt g)
  ∧ (gid ∉ gidsOf g →
     AddProcessAdditionalGid gid g
     = Returned tt (withGids (gidsOf g ++ [gid]) g))
  ∧ (∃ g', AddProcessAdditionalGid gid g = Returned tt g'
           ∧ gid ∈ gidsOf g'
           ∧ (NoDup (gidsOf g) → NoDup (gidsOf g'))
           ∧ AddProcessAdditionalGid gid g' = Returned tt g').
Proof.
  assert (Hin : ∀ g, gid ∈ gidsOf g →
                     AddProcessAdditionalGid gid g = Returned tt g).
  { intros g' Hgid. rewrite AddProcessAdditionalGid_run.
    destruct (list_find_elem_of (λ group, group = gid) (gidsOf g') gid Hgid
                eq_refl) as [[i x] ->].
    destruct g' as [[doc|] hs]; [done|]. by apply elem_of_nil in Hgid. }
  assert (Hout : gid ∉ gidsOf g →
                 AddProcessAdditionalGid gid g
                 = Returned tt (withGids (gidsOf g ++ [gid]) g)).
  { intros Hgid. rewrite AddProcessAdditionalGid_run.
    rewrite (list_find_none (λ group, group = gid)); [done|].
    apply Forall_forall. by intros x Hx ->. }
  split_and!; [by apply Hin|done|].
  destruct (decide (gid ∈ gidsOf g)) as [Hgid|Hgid].
  - exists g. rewrite Hin by done. split_and!; auto.
  - eexists. split; [by apply Hout|].
    assert (Hgid' : gid ∈ gidsOf (withGids (gidsOf g ++ [gid]) g)).
    { rewrite gidsOf_withGids. apply elem_of_app. right.
      by apply list_elem_of_singleton. }
    split_and!; [done| |by apply Hin].
    rewrite gidsOf_withGids. intros Hnodup. apply NoDup_app. split_and!; [done| |apply NoDup_singleton].
    by intros x Hx ->%list_elem_of_singleton.
Qed.

Lemma AddProcessAdditionalGid_once_witness :
  let g := withGids [5; 10]%Z {| spec := None; HostSpecific := false |} in
  AddProcessAdditionalGid 10 g = Returned tt g
  ∧ AddProcessAdditionalGid 7 g = Returned tt (withGids [5; 10; 7]%Z g).
Proof.
  intros g.
  destruct (AddProcessAdditionalGid_once 10 g) as (Hin & _ & _).
  destruct (AddProcessAdditionalGid_once 7 g) as (_ & Hout & _).
  split.
  - apply Hin. apply (bool_decide_unpack _). vm_compute. exact I.
  - apply Hout. apply (bool_decide_unpack _). vm_compute. exact I.
Defined.

(** ** Annotations and sysctl *)

Lemma AddAnnotation_run (key value : string) (g : Generator) :
  AddAnnotation key value g
  = Returned tt
      (withDoc (set_Spec_Annotations
                  (Some (<[key := value]> (annotationsOf g))) (docOf g)) g).
Proof.
  destruct g as [[[? ? ? ? ? ? ? [m|] ?]|] hs]; reflexivity.
Qed.

Lemma RemoveAnnotation_run (key : string) (g : Generator) :
  RemoveAnnotation key g
  = Returned tt
      (match spec g with
       | Some doc =>
           match Spec_Annotations doc with
           | Some m => withDoc (set_Spec_Annotations (Some (delete key m)) doc) g
           | None => g
           end
       | None => g
       end).
Proof.
  destruct g as [[[? ? ? ? ? ? ? [m|] ?]|] hs]; reflexivity.
Qed.

(** X3: [AddAnnotation] allocates what is missing and binds the key to the
    value, overwriting an earlier binding and keeping every other key;
    [RemoveAnnotation] of that key right after unbinds it again.  The two
    calls give the generator back exactly when the key was unbound in a map
    that was already allocated; on a nil map they leave an allocated empty
    map behind, while [RemoveAnnotation] alone leaves a nil map nil. *)
Theorem annotations_add_remove (key value : string) (g : Generator) :
  ∃ g1 g2,
    AddAnnotation key value g = Returned tt g1
    ∧ RemoveAnnotation key g1 = Returned tt g2
    ∧ g1 = withDoc (set_Spec_Annotations
                      (Some (<[key := value]> (annotationsOf g))) (docOf g)) g
    ∧ annotationsOf g1 !! key = Some value
    ∧ (∀ k, k ≠ key → annotationsOf g1 !! k = annotationsOf g !! k)
    ∧ annotationsOf g2 = delete key (annotationsOf g)
    ∧ (∀ doc m, spec g = Some doc → Spec_Annotations doc = Some m →
                m !! key = None → g2 = g)
    ∧ (Spec_Annotations (docOf g) = None →
       Spec_Annotations (docOf g2) = Some ∅
       ∧ ∃ g', RemoveAnnotation key g = Returned tt g'
               ∧ Spec_Annotations (docOf g') = None).
Proof.
  eexists _, _. split; [apply AddAnnotation_run|].
  split; [apply RemoveAnnotation_run|]. cbn [spec withDoc Spec_Annotations set_Spec_Annotations].
  split_and!.
  - done.
  - apply lookup_insert_eq.
  - intros k Hk. by apply lookup_insert_ne.
  - unfold annotationsOf at 1. cbn. apply delete_insert_eq.
  - intros doc m Hdoc Hm Hkey. destruct g as [p hs]. simpl in Hdoc. subst p.
    destruct doc as [? ? ? ? ? ? ? ann ?]. simpl in Hm. subst ann.
    unfold withDoc, annotationsOf, docOf. cbn.
    by rewrite delete_insert_eq, delete_id.
  - intros Hnil. split.
    + unfold docOf at 1. cbn. unfold annotationsOf. rewrite Hnil. cbn.
      by rewrite delete_insert_eq, delete_empty.
    + eexists. split; [apply RemoveAnnotation_run|].
      destruct g as [[doc|] hs]; [|done]. unfold docOf in Hnil. simpl in Hnil.
      cbn. by rewrite Hnil.
Qed.

Lemma AddLinuxSysctl_run (key value : string) (g : Generator) :
  AddLinuxSysctl key value g
  = Returned tt
      (withLinux (set_Linux_Sysctl (Some (<[key := value]> (sysctlOf g)))) g).
Proof.
  destruct g as [[[? ? ? ? ? ? ? ? [[? ? [m|] ? ? ? ? ? ? ? ? ?]|]]|] hs];
    reflexivity.
Qed.

(** X4: [AddLinuxSysctl] allocates the document, the Linux subtree and the
    map where they are missing and binds the key to the value, keeping the
    other keys and the other fields; on the result [RemoveLinuxSysctl]
    unbinds the key and [ClearLinuxSysctl] leaves an allocated empty map. *)
Theorem sysctl_add_remove_clear (key value : string) (g : Generator) :
  ∃ g1,
    AddLinuxSysctl key value g = Returned tt g1
    ∧ g1 = withLinux (set_Linux_Sysctl (Some (<[key := value]> (sysctlOf g)))) g
    ∧ sysctlOf g1 !! key = Some value
    ∧ (∀ k, k ≠ key → sysctlOf g1 !! k = sysctlOf g !! k)
    ∧ RemoveLinuxSysctl key g1
      = Returned tt
          (withLinux (set_Linux_Sysctl (Some (delete key (sysctlOf g)))) g)
    ∧ ClearLinuxSysctl g1
      = Returned tt (withLinux (set_Linux_Sysctl (Some ∅)) g).
Proof.
  eexists. split; [apply AddLinuxSysctl_run|]. split_and!.
  - done.
  - apply lookup_insert_eq.
  - intros k Hk. by apply lookup_insert_ne.
  - unfold RemoveLinuxSysctl, withLinux, withDoc. unfold_G. cbn.
    by rewrite delete_insert_eq.
  - reflexivity.
Qed.

Lemma annotations_add_remove_witness :
  let g := withDoc (set_Spec_Annotations (Some {["a" := "1"]}) Spec_zero)
             {| spec := None; HostSpecific := false |} in
  ∃ g1, AddAnnotation "b" "2" g = Returned tt g1
        ∧ annotationsOf g1 !! "b" = Some "2"
        ∧ annotationsOf g1 !! "a" = Some "1"
        ∧ RemoveAnnotation "b" g1 = Returned tt g.
Proof.
  intros g.
  destruct (annotations_add_remove "b" "2" g)
    as (g1 & g2 & Hadd & Hrem & _ & Hkey & Hother & _ & Hback & _).
  exists g1. split_and!; [exact Hadd|exact Hkey| |].
  - rewrite Hother by discriminate. reflexivity.
  - rewrite Hrem. f_equal.
    apply (Hback (set_Spec_Annotations (Some {["a" := "1"]}) Spec_zero)
             {["a" := "1"]}); reflexivity.
Defined.

Lemma sysctl_add_remove_clear_witness :
  let g := {| spec := None; HostSpecific := false |} in
  ∃ g1, AddLinuxSysctl "net.ipv4.ip_forward" "1" g = Returned tt g1
        ∧ sysctlOf g1 !! "net.ipv4.ip_forward" = Some "1"
        ∧ sysctlOf g1 !! "kernel.msgmax" = None.
Proof.
  intros g.
  destruct (sysctl_add_remove_clear "net.ipv4.ip_forward" "1" g)
    as (g1 & Hadd & _ & Hkey & Hother & _).
  exists g1. split_and!; [exact Hadd|exact Hkey|].
  rewrite Hother by discriminate. reflexivity.
Defined.

(** ** Capabilities: validation, removal and uniqueness *)

Section capability_more.
Context `{!strings.Pkg} `{!capability.Registry}.

Lemma capsOf_withCaps caps g : capsOf (withCaps caps g) = caps.
Proof. reflexivity. Qed.

Lemma withCaps_withCaps caps caps' g :
  withCaps caps (withCaps caps' g) = withCaps caps g.
Proof. by destruct g as [[[]|] hs]. Qed.

Lemma withCaps_capsOf g : withCaps (capsOf g) g = withDoc (docOf g) g.
Proof. by destruct g as [[[? ? []]|] hs]. Qed.

(** [checkCap] accepts a token exactly when the first registry entry bearing
    its upper-cased name passes the host check. *)
Lemma checkCap_None (c : string) (hostSpecific : bool) :
  checkCap c hostSpecific = None ↔
  ∃ l1 cap l2,
    capability.List = l1 ++ cap :: l2
    ∧ Forall (λ cap', strings.ToUpper c
                      ≠ strings.ToUpper (capability.String cap')) l1
    ∧ strings.ToUpper c = strings.ToUpper (capability.String cap)
    ∧ (hostSpecific = true → (cap ≤ lastCap)%Z).
Proof.
  split.
  - intros Hok.
    destruct (first_match_split
      (λ cap, strings.ToUpper c = strings.ToUpper (capability.String cap))
      capability.List) as [Hnone|(l1 & cap & l2 & Hl & Hcap & Hl1)].
    + by rewrite checkCap_unknown in Hok.
    + exists l1, cap, l2. split_and!; [done..|].
      rewrite (checkCap_known c _ l1 cap l2) in Hok by done.
      intros ->. cbn [andb] in Hok. case_bool_decide; [done|lia].
  - intros (l1 & cap & l2 & Hl & Hl1 & Hcap & Hhost).
    rewrite (checkCap_known c _ l1 cap l2) by done.
    destruct hostSpecific; [|done]. cbn [andb].
    rewrite bool_decide_eq_false_2; [done|]. specialize (Hhost eq_refl). lia.
Qed.

(** X5: validation looks at the upper-cased token only, so two tokens that
    differ in case are accepted or rejected together; without host-specific
    mode a token is accepted exactly when some registry entry bears its name
    up to case; and host-specific mode only ever rejects more. *)
Theorem checkCap_case_and_host (c c' : string) :
  (strings.ToUpper c = strings.ToUpper c' →
   ∀ hostSpecific,
     checkCap c hostSpecific = None ↔ checkCap c' hostSpecific = None)
  ∧ (checkCap c false = None ↔
     ∃ cap, cap ∈ capability.List
            ∧ strings.ToUpper c = strings.ToUpper (capability.String cap))
  ∧ (checkCap c true = None → checkCap c false = None).
Proof.
  split_and!.
  - intros Hcc hostSpecific. rewrite !checkCap_None.
    by setoid_rewrite Hcc.
  - rewrite checkCap_None. split.
    + intros (l1 & cap & l2 & Hl & _ & Hcap & _). exists cap.
      split; [|done]. rewrite Hl. apply elem_of_app. right. by left.
    + intros (cap & Hin & Hcap).
      destruct (first_match_split
        (λ cap, strings.ToUpper c = strings.ToUpper (capability.String cap))
        capability.List) as [Hnone|(l1 & cap' & l2 & Hl & Hcap' & Hl1)].
      * by destruct (proj1 (Forall_forall _ _) Hnone cap Hin).
      * by exists l1, cap', l2.
  - rewrite !checkCap_None. intros (l1 & cap & l2 & Hl & Hl1 & Hcap & _).
    by exists l1, cap, l2.
Qed.

(** X6: with a token that passes validation, [DropProcessCapability] deletes
    the first entry that equals "CAP_" and the upper-cased token once
    upper-cased, keeping the others in order, and only allocates the
    document when no entry does; when the entries are distinct up to case,
    no entry matching the token is left. *)
Theorem DropProcessCapability_removes (c : string) (g : Generator) :
  checkCap c (HostSpecific g) = None →
  let cp := "CAP_" +:+ strings.ToUpper c in
  (∀ l1 cap l2,
     capsOf g = l1 ++ cap :: l2 → strings.ToUpper cap = cp →
     Forall (λ cap', strings.ToUpper cap' ≠ cp) l1 →
     DropProcessCapability c g = Returned None (withCaps (l1 ++ l2) g))
  ∧ (Forall (λ cap', strings.ToUpper cap' ≠ cp) (capsOf g) →
     DropProcessCapability c g = Returned None (withDoc (docOf g) g))
  ∧ (NoDup (strings.ToUpper <$> capsOf g) →
     ∃ g', DropProcessCapability c g = Returned None g'
           ∧ Forall (λ cap', strings.ToUpper cap' ≠ cp) (capsOf g')
           ∧ NoDup (strings.ToUpper <$> capsOf g')).
Proof.
  intros Hok cp.
  pose proof (DropProcessCapability_run c g) as Hrun.
  rewrite Hok in Hrun. fold cp in Hrun.
  assert (Hfound : ∀ l1 cap l2,
    capsOf g = l1 ++ cap :: l2 → strings.ToUpper cap = cp →
    Forall (λ cap', strings.ToUpper cap' ≠ cp) l1 →
    DropProcessCapability c g = Returned None (withCaps (l1 ++ l2) g)).
  { intros l1 cap l2 Hl Hcap Hl1. rewrite Hrun, Hl.
    rewrite (list_find_first (λ cap, strings.ToUpper cap = cp)) by done.
    by rewrite take_drop_first. }
  assert (Hfresh : Forall (λ cap', strings.ToUpper cap' ≠ cp) (capsOf g) →
    DropProcessCapability c g = Returned None (withDoc (docOf g) g)).
  { intros Hnone. rewrite Hrun.
    by rewrite (list_find_none (λ cap, strings.ToUpper cap = cp)). }
  split_and!; [done..|]. intros Hnodup.
  destruct (first_match_split (λ cap, strings.ToUpper cap = cp) (capsOf g))
    as [Hnone|(l1 & cap & l2 & Hl & Hcap & Hl1)].
  - eexists. split; [by apply Hfresh|]. rewrite <- withCaps_capsOf.
    by rewrite capsOf_withCaps.
  - eexists. split; [by eapply Hfound|]. rewrite capsOf_withCaps.
    rewrite Hl, fmap_app, fmap_cons in Hnodup.
    apply NoDup_app in Hnodup as (Hn1 & Hdisj & [Hnotin Hn2]%NoDup_cons).
    split.
    + apply Forall_app. split; [done|]. apply Forall_forall.
      intros cap' Hin Hcap'. apply Hnotin. rewrite Hcap, <- Hcap'.
      apply list_elem_of_fmap. by exists cap'.
    + rewrite fmap_app. apply NoDup_app. split_and!; [done| |done].
      intros x Hx1 Hx2. apply (Hdisj x Hx1). by right.
Qed.

(** X7: when upper-casing leaves "CAP_" and the upper-cased token as it is,
    [AddProcessCapability] keeps a capability list distinct up to case
    distinct up to case, and [DropProcessCapability] right after
    [AddProcessCapability] of a token that was not listed gives the list
    back. *)
Theorem AddProcessCapability_unique_roundtrip (c : string) (g : Generator) :
  checkCap c (HostSpecific g) = None →
  let cp := "CAP_" +:+ strings.ToUpper c in
  strings.ToUpper cp = cp →
  (NoDup (strings.ToUpper <$> capsOf g) →
   ∃ g', AddProcessCapability c g = Returned None g'
         ∧ cp ∈ strings.ToUpper <$> capsOf g'
         ∧ NoDup (strings.ToUpper <$> capsOf g'))
  ∧ (Forall (λ cap', strings.ToUpper cap' ≠ cp) (capsOf g) →
     ∃ g1, AddProcessCapability c g = Returned None g1
           ∧ capsOf g1 = capsOf g ++ [cp]
           ∧ DropProcessCapability c g1
             = Returned None (withDoc (docOf g) g)).
Proof.
  intros Hok cp Hcp.
  pose proof (AddProcessCapability_run c g) as Hrun.
  rewrite Hok in Hrun. fold cp in Hrun.
  assert (Hfresh : Forall (λ cap', strings.ToUpper cap' ≠ cp) (capsOf g) →
    AddProcessCapability c g
    = Returned None (withCaps (capsOf g ++ [cp]) g)).
  { intros Hnone. rewrite Hrun.
    by rewrite (list_find_none (λ cap, strings.ToUpper cap = cp)). }
  split.
  - intros Hnodup.
    destruct (first_match_split (λ cap, strings.ToUpper cap = cp) (capsOf g))
      as [Hnone|(l1 & cap & l2 & Hl & Hcap & Hl1)].
    + eexists. split; [by apply Hfresh|]. rewrite capsOf_withCaps, fmap_app.
      split.
      * apply elem_of_app. right. simpl. rewrite Hcp. by left.
      * apply NoDup_app. split_and!; [done| |apply NoDup_singleton].
        intros x (cap' & -> & Hin)%list_elem_of_fmap Hx.
        apply list_elem_of_singleton in Hx. rewrite Hcp in Hx.
        by eapply (proj1 (Forall_forall _ _) Hnone).
    + eexists. split.
      { rewrite Hrun, Hl.
        by rewrite (list_find_first (λ cap, strings.ToUpper cap = cp)). }
      rewrite <- withCaps_capsOf, capsOf_withCaps. split; [|done].
      rewrite Hl, fmap_app, fmap_cons, Hcap. apply elem_of_app. right. by left.
  - intros Hnone. eexists. split; [by apply Hfresh|].
    rewrite capsOf_withCaps. split; [done|].
    pose proof (DropProcessCapability_run c (withCaps (capsOf g ++ [cp]) g))
      as Hdrop.
    change (HostSpecific (withCaps (capsOf g ++ [cp]) g))
      with (HostSpecific g) in Hdrop.
    rewrite Hok in Hdrop. fold cp in Hdrop. rewrite capsOf_withCaps in Hdrop.
    rewrite (list_find_first (λ cap, strings.ToUpper cap = cp)) in Hdrop
      by done.
    rewrite take_drop_first, app_nil_r, withCaps_withCaps in Hdrop.
    by rewrite Hdrop, withCaps_capsOf.
Qed.
End capability_more.

(** Upper-casing ASCII text twice is upper-casing it once, and it goes
    through concatenation. *)
Lemma ascii_ToUpper_idemp (c : ascii) : ascii_ToUpper (ascii_ToUpper c) = ascii_ToUpper c.
Proof. by destruct c as [[] [] [] [] [] [] [] []]. Qed.

Lemma string_ToUpper_idemp (s : string) : string_ToUpper (string_ToUpper s) = string_ToUpper s.
Proof.
  induction s as [|c s IH]; [done|]. cbn [string_ToUpper].
  by rewrite ascii_ToUpper_idemp, IH.
Qed.

Lemma string_ToUpper_CAP (s : string) :
  string_ToUpper ("CAP_" +:+ string_ToUpper s) = "CAP_" +:+ string_ToUpper s.
Proof.
  change ("CAP_" +:+ string_ToUpper s)
    with (String "C" (String "A" (String "P" (String "_" (string_ToUpper s))))).
  cbn [string_ToUpper]. by rewrite string_ToUpper_idemp.
Qed.

Lemma checkCap_case_and_host_witness :
  let check := @checkCap ascii_strings linux_caps_36 in
  (check "Sys_Admin" true = None ↔ check "SYS_ADMIN" true = None)
  ∧ check "sys_admin" false = None
  ∧ check "audit_read" false = None
  ∧ check "audit_read" true
    = Some "CAP_AUDIT_READ is not supported on the current host".
Proof.
  intros check.
  destruct (@checkCap_case_and_host ascii_strings linux_caps_36
              "Sys_Admin" "SYS_ADMIN") as (Hcase & _ & _).
  destruct (@checkCap_case_and_host ascii_strings linux_caps_36
              "sys_admin" "sys_admin") as (_ & _ & Hhost).
  split_and!; [apply Hcase; reflexivity|apply Hhost; reflexivity|
               reflexivity|reflexivity].
Defined.

Lemma DropProcessCapability_removes_witness :
  let Drop := @DropProcessCapability ascii_strings linux_caps in
  let g := withCaps ["CAP_CHOWN"; "cap_kill"; "CAP_MKNOD"]
             {| spec := None; HostSpecific := false |} in
  Drop "Kill" g = Returned None (withCaps ["CAP_CHOWN"; "CAP_MKNOD"] g)
  ∧ Drop "setuid" g = Returned None g.
Proof.
  intros Drop g.
  destruct (@DropProcessCapability_removes ascii_strings linux_caps "Kill" g
              eq_refl) as (Hfound & _ & _).
  destruct (@DropProcessCapability_removes ascii_strings linux_caps "setuid" g
              eq_refl) as (_ & Hfresh & _).
  split.
  - apply (Hfound ["CAP_CHOWN"] "cap_kill" ["CAP_MKNOD"]);
      [reflexivity|reflexivity|]. repeat constructor. discriminate.
  - apply Hfresh. repeat constructor; discriminate.
Defined.

Lemma AddProcessCapability_unique_roundtrip_witness :
  let g := withCaps ["CAP_CHOWN"] {| spec := None; HostSpecific := false |} in
  ∃ g1, @AddProcessCapability ascii_strings linux_caps "kill" g = Returned None g1
        ∧ capsOf g1 = ["CAP_CHOWN"; "CAP_KILL"]
        ∧ @DropProcessCapability ascii_strings linux_caps "kill" g1
          = Returned None g.
Proof.
  intros g.
  destruct (@AddProcessCapability_unique_roundtrip ascii_strings linux_caps
              "kill" g eq_refl eq_refl) as (_ & Hround).
  destruct Hround as (g1 & Hadd & Hcaps & Hdrop).
  { repeat constructor. discriminate. }
  exists g1. split_and!; [exact Hadd|exact Hcaps|exact Hdrop].
Defined.

(** ** Privileged mode and the confinement setters *)

Section privileged_more.
Context `{!strings.Pkg} `{!capability.Registry}.

(** The generator [SetupPrivileged(true)] leaves behind. *)
Lemma SetupPrivileged_state (g : Generator) :
  ∃ g1, SetupPrivileged true g = Returned tt g1
        ∧ HostSpecific g1 = HostSpecific g
        ∧ is_Some (spec g1)
        ∧ is_Some (Spec_Linux (docOf g1))
        ∧ capsOf g1 = privilegedCaps (HostSpecific g)
        ∧ Process_SelinuxLabel (Spec_Process (docOf g1)) = ""
        ∧ Process_ApparmorProfile (Spec_Process (docOf g1)) = ""
        ∧ Linux_Seccomp (linuxOf g1) = None.
Proof.
  eexists. split; [apply SetupPrivileged_run|]. by split_and!.
Qed.

(** X8: once [SetupPrivileged(true)] has run, adding any capability that
    passes validation succeeds and changes nothing, provided upper-casing
    leaves "CAP_" followed by an upper-cased name as it is: the privileged
    list already holds every capability the validation can accept. *)
Theorem SetupPrivileged_absorbs_Add (c : string) (g : Generator) :
  (∀ s, strings.ToUpper ("CAP_" +:+ strings.ToUpper s)
        = "CAP_" +:+ strings.ToUpper s) →
  checkCap c (HostSpecific g) = None →
  ∃ g1, SetupPrivileged true g = Returned tt g1
        ∧ AddProcessCapability c g1 = Returned None g1.
Proof.
  intros Hupper Hok.
  destruct (SetupPrivileged_state g)
    as (g1 & Hrun & Hhs & [doc Hdoc] & _ & Hcaps & _).
  exists g1. split; [done|].
  rewrite AddProcessCapability_run, Hhs, Hok, Hcaps.
  apply checkCap_None in Hok as (l1 & cap & l2 & Hl & _ & Hcap & Hhost).
  destruct (list_find_elem_of
    (λ cap', strings.ToUpper cap' = "CAP_" +:+ strings.ToUpper c)
    (privilegedCaps (HostSpecific g))
    ("CAP_" +:+ strings.ToUpper (capability.String cap)))
    as [[i x] ->].
  - apply list_elem_of_fmap. exists cap. split; [done|].
    apply list_elem_of_filter. split; [done|].
    rewrite Hl. apply elem_of_app. right. by left.
  - by rewrite Hupper, Hcap.
  - destruct g1 as [p hs]. simpl in Hdoc. by subst p.
Qed.

End privileged_more.

Lemma SetupPrivileged_absorbs_Add_witness :
  let g := withCaps ["CAP_KILL"] {| spec := None; HostSpecific := true |} in
  ∃ g1, @SetupPrivileged ascii_strings linux_caps_36 true g = Returned tt g1
        ∧ @AddProcessCapability ascii_strings linux_caps_36 "net_admin" g1
          = Returned None g1
        ∧ length (capsOf g1) = 37.
Proof.
  intros g.
  destruct (@SetupPrivileged_absorbs_Add ascii_strings linux_caps_36
              "net_admin" g string_ToUpper_CAP eq_refl) as (g1 & Hrun & Hadd).
  exists g1. split_and!; [exact Hrun|exact Hadd|].
  assert (Hg1 : Returned tt g1
                = @SetupPrivileged ascii_strings linux_caps_36 true g)
    by (symmetry; exact Hrun).
  vm_compute in Hg1. injection Hg1 as ->. reflexivity.
Defined.

(** ** Rootfs propagation *)

(** X10: [SetLinuxRootPropagation] accepts the empty string and the six
    propagation modes, for which it allocates the Linux subtree if need be
    and sets the field, keeping the other fields; for any other string it
    returns an error and leaves the generator as it was, not even
    allocated. *)
Theorem SetLinuxRootPropagation_validates (rp : string) (g : Generator) :
  let modes := [""; "private"; "rprivate"; "slave"; "rslave"; "shared";
                "rshared"] in
  (rp ∈ modes →
   SetLinuxRootPropagation rp g
   = Returned None (withLinux (set_Linux_RootfsPropagation rp) g))
  ∧ (rp ∉ modes →
     SetLinuxRootPropagation rp g
     = Returned (Some "rootfs-propagation must be empty or one of private|rprivate|slave|rslave|shared|rshared") g).
Proof.
  intros modes. unfold modes. split.
  - rewrite !elem_of_cons, elem_of_nil.
    intros [->|[->|[->|[->|[->|[->|[->|[]]]]]]]];
      by destruct g as [[[? ? ? ? ? ? ? ? [l|]]|] hs].
  - rewrite !not_elem_of_cons. intros (?&?&?&?&?&?&?&_).
    unfold SetLinuxRootPropagation, SetLinuxRootPropagation_switch.
    by rewrite !bool_decide_eq_false_2.
Qed.

Lemma SetLinuxRootPropagation_validates_witness :
  let g := {| spec := None; HostSpecific := false |} in
  SetLinuxRootPropagation "rslave" g
  = Returned None (withLinux (set_Linux_RootfsPropagation "rslave") g)
  ∧ SetLinuxRootPropagation "" g
    = Returned None (withLinux (set_Linux_RootfsPropagation "") g)
  ∧ ∃ err, SetLinuxRootPropagation "unbindable" g = Returned (Some err) g.
Proof.
  intros g.
  destruct (SetLinuxRootPropagation_validates "rslave" g) as [Hslave _].
  destruct (SetLinuxRootPropagation_validates "" g) as [Hempty _].
  destruct (SetLinuxRootPropagation_validates "unbindable" g) as [_ Hbad].
  split_and!.
  - apply Hslave. apply (bool_decide_unpack _). exact I.
  - apply Hempty. apply (bool_decide_unpack _). exact I.
  - eexists. apply Hbad. apply (bool_decide_unpack _). exact I.
Defined.

(** ** Removing a namespace *)

Lemma withNamespaces_namespacesOf doc l hs :
  Spec_Linux doc = Some l →
  let g := {| spec := Some doc; HostSpecific := hs |} in
  withNamespaces (namespacesOf g) g = g.
Proof.
  destruct doc as [? ? ? ? ? ? ? ? lin]. simpl. intros ->. by destruct l.
Qed.

Lemma withNamespaces_withNamespaces nss nss' g :
  withNamespaces nss (withNamespaces nss' g) = withNamespaces nss g.
Proof. by destruct g as [[[? ? ? ? ? ? ? ? [l|]]|] hs]. Qed.

(** X11: for a recognised kind, [RemoveLinuxNamespace] deletes the first
    entry of that kind and keeps the others in order; when no kind occurs
    twice, no entry of the kind is left and a second call changes nothing;
    and on a document with a Linux subtree, removing a kind right after
    adding it, when it was not there, gives the generator back. *)
Theorem RemoveLinuxNamespace_deletes (k : string) (g : Generator) :
  k ∈ Namespaces →
  (∀ l1 n l2,
     namespacesOf g = l1 ++ n :: l2 → LinuxNamespace_Type n = k →
     Forall (λ n', LinuxNamespace_Type n' ≠ k) l1 →
     RemoveLinuxNamespace k g = Returned None (withNamespaces (l1 ++ l2) g))
  ∧ (NoDup (LinuxNamespace_Type <$> namespacesOf g) →
     ∃ g', RemoveLinuxNamespace k g = Returned None g'
           ∧ Forall (λ n', LinuxNamespace_Type n' ≠ k) (namespacesOf g')
           ∧ RemoveLinuxNamespace k g' = Returned None g')
  ∧ (∀ p doc l,
       spec g = Some doc → Spec_Linux doc = Some l →
       Forall (λ n', LinuxNamespace_Type n' ≠ k) (namespacesOf g) →
       ∃ g1, AddOrReplaceLinuxNamespace k p g = Returned None g1
             ∧ RemoveLinuxNamespace k g1 = Returned None g).
Proof.
  intros Hk.
  assert (Hfound : ∀ g l1 n l2,
    namespacesOf g = l1 ++ n :: l2 → LinuxNamespace_Type n = k →
    Forall (λ n', LinuxNamespace_Type n' ≠ k) l1 →
    RemoveLinuxNamespace k g = Returned None (withNamespaces (l1 ++ l2) g)).
  { intros g' l1 n l2 Hl Hn Hl1. rewrite RemoveLinuxNamespace_run, Hl by done.
    rewrite (list_find_first (λ ns, LinuxNamespace_Type ns = k)) by done.
    by rewrite take_drop_first. }
  assert (Hfresh : ∀ g,
    Forall (λ n', LinuxNamespace_Type n' ≠ k) (namespacesOf g) →
    RemoveLinuxNamespace k g = Returned None g).
  { intros g' Hnone. rewrite RemoveLinuxNamespace_run by done.
    by rewrite (list_find_none (λ ns, LinuxNamespace_Type ns = k)). }
  split_and!; [by apply Hfound| |].
  - intros Hnodup.
    destruct (first_match_split (λ n, LinuxNamespace_Type n = k) (namespacesOf g))
      as [Hnone|(l1 & n & l2 & Hl & Hn & Hl1)].
    + exists g. rewrite Hfresh by done. by split_and!.
    + assert (Hrest : Forall (λ n', LinuxNamespace_Type n' ≠ k) (l1 ++ l2)).
      { rewrite Hl, fmap_app, fmap_cons, Hn in Hnodup.
        apply NoDup_app in Hnodup as (_ & _ & [Hnotin _]%NoDup_cons).
        apply Forall_app. split; [done|]. apply Forall_forall.
        intros n' Hin Hn'. apply Hnotin. apply list_elem_of_fmap. by exists n'. }
      eexists. split; [by eapply Hfound|].
      split; [by rewrite namespacesOf_withNamespaces|].
      apply Hfresh. by rewrite namespacesOf_withNamespaces.
  - intros p doc l Hdoc Hl Hnone. eexists.
    split; [by rewrite AddOrReplaceLinuxNamespace_run,
              (list_find_none (λ ns, LinuxNamespace_Type ns = k))|].
    rewrite (Hfound _ (namespacesOf g)
                   {| LinuxNamespace_Type := k; LinuxNamespace_Path := p |} [])
      by done.
    rewrite app_nil_r, withNamespaces_withNamespaces.
    destruct g as [sp hs]. simpl in Hdoc. subst sp.
    by rewrite (withNamespaces_namespacesOf doc l hs Hl).
Qed.

Lemma RemoveLinuxNamespace_deletes_witness :
  let ns t := {| LinuxNamespace_Type := t; LinuxNamespace_Path := "" |} in
  let g := withNamespaces [ns "pid"; ns "network"; ns "ipc"]
             {| spec := None; HostSpecific := false |} in
  RemoveLinuxNamespace "network" g
  = Returned None (withNamespaces [ns "pid"; ns "ipc"] g)
  ∧ ∃ g1, AddOrReplaceLinuxNamespace "user" "/proc/1/ns/user" g = Returned None g1
          ∧ RemoveLinuxNamespace "user" g1 = Returned None g.
Proof.
  intros ns g.
  assert (Hnetwork : "network" ∈ Namespaces)
    by (apply (bool_decide_unpack _); exact I).
  assert (Huser : "user" ∈ Namespaces) by (apply (bool_decide_unpack _); exact I).
  destruct (RemoveLinuxNamespace_deletes "network" g Hnetwork) as (Hfound & _ & _).
  destruct (RemoveLinuxNamespace_deletes "user" g Huser) as (_ & _ & Hround).
  split.
  - apply (Hfound [ns "pid"] (ns "network") [ns "ipc"]);
      [reflexivity|reflexivity|]. repeat constructor. discriminate.
  - eapply Hround; [reflexivity|reflexivity|]. repeat constructor; discriminate.
Defined.

(** ** Network priorities *)

(** [unfold_G], with the computations on the resources added. *)
Ltac unfold_G_resources :=
  cbv [mbind mret G_bind G_ret getHostSpecific getSpecPtr setSpecPtr deref
       loadSpec storeSpec loadLinux storeLinux initSpec initSpecLinux noLinux
       loadResources storeResources loadNetwork storeNetwork
       initSpecLinuxResources initSpecLinuxResourcesNetwork].

Lemma prioritiesOf_withPriorities ps g : prioritiesOf (withPriorities ps g) = ps.
Proof. reflexivity. Qed.

Lemma AddLinuxResourcesNetworkPriorities_run (name : string) (prio : Z) (g : Generator) :
  AddLinuxResourcesNetworkPriorities name prio g
  = Returned tt
      (withPriorities
         (match list_find (λ p, LinuxInterfacePriority_Name p = name)
                          (prioritiesOf g) with
          | Some (i, p) =>
              <[i := {| LinuxInterfacePriority_Name :=
                          LinuxInterfacePriority_Name p;
                        LinuxInterfacePriority_Priority := prio |}]>
                (prioritiesOf g)
          | None =>
              prioritiesOf g ++ [ {| LinuxInterfacePriority_Name := name;
                                     LinuxInterfacePriority_Priority := prio |} ]
          end) g).
Proof.
  destruct g as [[[? ? ? ? ? ? ? ?
                    [[? ? ? [[? ? ? ? ? ? [[? ps]|]]|] ? ? ? ? ? ? ? ?]|]]|] hs];
    [|done..].
  unfold AddLinuxResourcesNetworkPriorities, prioritiesOf, networkOf,
    resourcesOf, linuxOf, docOf.
  unfold_G_resources. cbn. by destruct (list_find _ _) as [[i p]|].
Qed.

Lemma DropLinuxResourcesNetworkPriorities_run (name : string) (g : Generator) :
  DropLinuxResourcesNetworkPriorities name g
  = Returned tt
      (withPriorities
         (match list_find (λ p, LinuxInterfacePriority_Name p = name)
                          (prioritiesOf g) with
          | Some (i, _) => take i (prioritiesOf g) ++ drop (S i) (prioritiesOf g)
          | None => prioritiesOf g
          end) g).
Proof.
  destruct g as [[[? ? ? ? ? ? ? ?
                    [[? ? ? [[? ? ? ? ? ? [[? ps]|]]|] ? ? ? ? ? ? ? ?]|]]|] hs];
    [|done..].
  unfold DropLinuxResourcesNetworkPriorities, prioritiesOf, networkOf,
    resourcesOf, linuxOf, docOf.
  unfold_G_resources. cbn. by destruct (list_find _ _) as [[i p]|].
Qed.

(** X12: [AddLinuxResourcesNetworkPriorities] overwrites the priority of the
    first entry with the interface name where it stands and appends a new
    entry when there is none; [DropLinuxResourcesNetworkPriorities] deletes
    that first entry.  Unlike the removing methods that guard against a nil
    document, the drop allocates the document, the Linux subtree, the
    resources and their network part even when it finds nothing to
    delete. *)
Theorem network_priorities_upsert_drop (name : string) (prio : Z) (g : Generator) :
  let new := {| LinuxInterfacePriority_Name := name;
                LinuxInterfacePriority_Priority := prio |} in
  (∀ l1 p l2,
     prioritiesOf g = l1 ++ p :: l2 → LinuxInterfacePriority_Name p = name →
     Forall (λ p', LinuxInterfacePriority_Name p' ≠ name) l1 →
     AddLinuxResourcesNetworkPriorities name prio g
     = Returned tt (withPriorities (l1 ++ new :: l2) g)
     ∧ DropLinuxResourcesNetworkPriorities name g
       = Returned tt (withPriorities (l1 ++ l2) g))
  ∧ (Forall (λ p', LinuxInterfacePriority_Name p' ≠ name) (prioritiesOf g) →
     AddLinuxResourcesNetworkPriorities name prio g
     = Returned tt (withPriorities (prioritiesOf g ++ [new]) g)
     ∧ DropLinuxResourcesNetworkPriorities name g
       = Returned tt (withPriorities (prioritiesOf g) g))
  ∧ (spec g = None →
     DropLinuxResourcesNetworkPriorities name g
     = Returned tt
         (withDoc (set_Spec_Linux
                     (Some (set_Linux_Resources
                              (Some (set_LinuxResources_Network
                                       (Some LinuxNetwork_zero)
                                       LinuxResources_zero))
                              Linux_zero))
                     Spec_zero) g)).
Proof.
  intros new. split_and!.
  - intros l1 p l2 Hl Hp Hl1.
    rewrite AddLinuxResourcesNetworkPriorities_run,
      DropLinuxResourcesNetworkPriorities_run, Hl.
    rewrite (list_find_first (λ p, LinuxInterfacePriority_Name p = name))
      by done.
    by rewrite insert_first, take_drop_first, Hp.
  - intros Hnone.
    rewrite AddLinuxResourcesNetworkPriorities_run,
      DropLinuxResourcesNetworkPriorities_run.
    by rewrite (list_find_none (λ p, LinuxInterfacePriority_Name p = name)).
  - intros Hnil. destruct g as [sp hs]. simpl in Hnil. by subst sp.
Qed.

Lemma network_priorities_upsert_drop_witness :
  let prio n p := {| LinuxInterfacePriority_Name := n;
                     LinuxInterfacePriority_Priority := p |} in
  let g0 := {| spec := None; HostSpecific := false |} in
  let g := withPriorities [prio "eth0" 2%Z; prio "lo" 1%Z] g0 in
  AddLinuxResourcesNetworkPriorities "lo" 5 g
  = Returned tt (withPriorities [prio "eth0" 2%Z; prio "lo" 5%Z] g)
  ∧ DropLinuxResourcesNetworkPriorities "eth0" g
    = Returned tt (withPriorities [prio "lo" 1%Z] g)
  ∧ DropLinuxResourcesNetworkPriorities "eth1" g = Returned tt g
  ∧ DropLinuxResourcesNetworkPriorities "eth1" g0
    = Returned tt (withPriorities [] g0).
Proof.
  intros prio g0 g.
  destruct (network_priorities_upsert_drop "lo" 5 g) as (Hlo & _ & _).
  destruct (network_priorities_upsert_drop "eth0" 0 g) as (Heth0 & _ & _).
  destruct (network_priorities_upsert_drop "eth1" 0 g) as (_ & Heth1 & _).
  destruct (network_priorities_upsert_drop "eth1" 0 g0) as (_ & _ & Hnil).
  split_and!.
  - apply (Hlo [prio "eth0" 2%Z] (prio "lo" 1%Z) []); [reflexivity..|].
    repeat constructor. discriminate.
  - apply (Heth0 [] (prio "eth0" 2%Z) [prio "lo" 1%Z]); [reflexivity..|].
    constructor.
  - apply Heth1. repeat constructor; discriminate.
  - apply Hnil. reflexivity.
Defined.

(** ** Sequences that only grow: id mappings, mounts, hooks, paths *)

Section appenders.
Context {X A : Type} (op : X → G unit) (mk : X → A).
Context (get : Generator → list A) (put : list A → Generator → Generator).
Hypothesis op_run : ∀ x g, op x g = Returned tt (put (get g ++ [mk x]) g).
Hypothesis get_put : ∀ l g, get (put l g) = l.
Hypothesis put_put : ∀ l l' g, put l (put l' g) = put l g.

(** Calls of an appending method, one per element of a list, append the
    elements in the order of the list. *)
Lemma runAll_appends (xs : list X) (g : Generator) :
  xs ≠ [] →
  runAll (op <$> xs) g = Returned tt (put (get g ++ (mk <$> xs)) g).
Proof.
  destruct xs as [|x xs]; [done|]. intros _. revert x g.
  induction xs as [|y xs IH]; intros x g.
  - cbn [fmap list_fmap runAll]. unfold mbind, G_bind. by rewrite op_run.
  - change (runAll (op <$> x :: y :: xs) g)
      with (match op x g with
            | Returned _ g' => runAll (op <$> y :: xs) g'
            | Panicked g' => Panicked g'
            end).
    rewrite op_run, IH, get_put, put_put.
    by rewrite <- app_assoc.
Qed.
End appenders.

(** X13: calling [AddLinuxUIDMapping] for each triple of a list appends the
    triples to the uid mappings in the order of the calls, repeated triples
    included, and leaves the gid mappings and every other field alone; the
    same holds of [AddLinuxGIDMapping] with the roles exchanged. *)
Theorem id_mappings_appended_in_order (ms : list (Z * Z * Z)) (g : Generator) :
  ms ≠ [] →
  runAll ((λ m, AddLinuxUIDMapping m.1.1 m.1.2 m.2) <$> ms) g
  = Returned tt
      (withLinux (λ l, set_Linux_UIDMappings
                         (Linux_UIDMappings (linuxOf g) ++ (mkIDMapping <$> ms)) l) g)
  ∧ runAll ((λ m, AddLinuxGIDMapping m.1.1 m.1.2 m.2) <$> ms) g
    = Returned tt
        (withLinux (λ l, set_Linux_GIDMappings
                           (Linux_GIDMappings (linuxOf g) ++ (mkIDMapping <$> ms)) l) g).
Proof.
  intros Hms. split.
  - apply (runAll_appends _ mkIDMapping
             (λ g, Linux_UIDMappings (linuxOf g))
             (λ l g, withLinux (set_Linux_UIDMappings l) g)); [| | |done].
    + intros m g'. by destruct g' as [[[? ? ? ? ? ? ? ? [l|]]|] hs].
    + done.
    + intros l l' g'. by destruct g' as [[[? ? ? ? ? ? ? ? [lin|]]|] hs].
  - apply (runAll_appends _ mkIDMapping
             (λ g, Linux_GIDMappings (linuxOf g))
             (λ l g, withLinux (set_Linux_GIDMappings l) g)); [| | |done].
    + intros m g'. by destruct g' as [[[? ? ? ? ? ? ? ? [l|]]|] hs].
    + done.
    + intros l l' g'. by destruct g' as [[[? ? ? ? ? ? ? ? [lin|]]|] hs].
Qed.

Lemma id_mappings_appended_in_order_witness :
  let g := {| spec := None; HostSpecific := false |} in
  ∃ g', runAll [AddLinuxUIDMapping 1000 0 1; AddLinuxUIDMapping 1000 0 1;
                AddLinuxUIDMapping 0 1 10] g = Returned tt g'
        ∧ length (Linux_UIDMappings (linuxOf g')) = 3
        ∧ Linux_GIDMappings (linuxOf g') = [].
Proof.
  intros g.
  destruct (id_mappings_appended_in_order
              [(1000, 0, 1); (1000, 0, 1); (0, 1, 10)]%Z g) as [Huid _];
    [discriminate|].
  eexists. split; [exact Huid|]. split; reflexivity.
Defined.

(** X14: calling [AddTmpfsMount] for each destination and option list of a
    list appends one tmpfs mount per call after the mounts already there,
    in the order of the calls, with the options as given; two mounts on the
    same destination are both kept. *)
Theorem tmpfs_mounts_appended_in_order (ms : list (string * list string)) (g : Generator) :
  ms ≠ [] →
  runAll ((λ m, AddTmpfsMount m.1 m.2) <$> ms) g
  = Returned tt
      (withDoc (set_Spec_Mounts (mountsOf g ++ (mkTmpfs <$> ms)) (docOf g)) g).
Proof.
  intros Hms.
  apply (runAll_appends _ mkTmpfs mountsOf
           (λ l g, withDoc (set_Spec_Mounts l (docOf g)) g)); [| | |done].
  - intros m g'. by destruct g' as [[doc|] hs].
  - done.
  - intros l l' g'. by destruct g' as [[[]|] hs].
Qed.

Lemma tmpfs_mounts_appended_in_order_witness :
  let g := {| spec := None; HostSpecific := false |} in
  ∃ g', runAll [AddTmpfsMount "/tmp" ["size=64k"]; AddTmpfsMount "/tmp" []] g
        = Returned tt g'
        ∧ mountsOf g' = [mkTmpfs ("/tmp", ["size=64k"]); mkTmpfs ("/tmp", [])].
Proof.
  intros g.
  destruct (tmpfs_mounts_appended_in_order
              [("/tmp", ["size=64k"]); ("/tmp", [])] g) as [];
    [discriminate|].
  eexists. split; reflexivity.
Defined.

(** X15: each of [AddPreStartHook], [AddPostStartHook] and [AddPostStopHook],
    called for each hook of a list, appends the hooks in the order of the
    calls to the list of its own stage and leaves the lists of the two other
    stages as they were. *)
Theorem hooks_appended_by_stage (hs : list (string * list string)) (g : Generator) :
  hs ≠ [] →
  let withHooks f := withDoc (set_Spec_Hooks (f (hooksOf g)) (docOf g)) g in
  runAll ((λ h, AddPreStartHook h.1 h.2) <$> hs) g
  = Returned tt (withHooks (λ h, set_Hooks_Prestart
                                   (Hooks_Prestart h ++ (mkHook <$> hs)) h))
  ∧ runAll ((λ h, AddPostStartHook h.1 h.2) <$> hs) g
    = Returned tt (withHooks (λ h, set_Hooks_Poststart
                                     (Hooks_Poststart h ++ (mkHook <$> hs)) h))
  ∧ runAll ((λ h, AddPostStopHook h.1 h.2) <$> hs) g
    = Returned tt (withHooks (λ h, set_Hooks_Poststop
                                     (Hooks_Poststop h ++ (mkHook <$> hs)) h)).
Proof.
  intros Hhs withHooks. unfold withHooks. split_and!.
  - apply (runAll_appends _ mkHook (λ g, Hooks_Prestart (hooksOf g))
             (λ l g, withDoc (set_Spec_Hooks (set_Hooks_Prestart l (hooksOf g))
                                (docOf g)) g)); [| | |done].
    + intros h g'. by destruct g' as [[doc|] b].
    + done.
    + intros l l' g'. by destruct g' as [[[? ? ? ? ? ? []]|] b].
  - apply (runAll_appends _ mkHook (λ g, Hooks_Poststart (hooksOf g))
             (λ l g, withDoc (set_Spec_Hooks (set_Hooks_Poststart l (hooksOf g))
                                (docOf g)) g)); [| | |done].
    + intros h g'. by destruct g' as [[doc|] b].
    + done.
    + intros l l' g'. by destruct g' as [[[? ? ? ? ? ? []]|] b].
  - apply (runAll_appends _ mkHook (λ g, Hooks_Poststop (hooksOf g))
             (λ l g, withDoc (set_Spec_Hooks (set_Hooks_Poststop l (hooksOf g))
                                (docOf g)) g)); [| | |done].
    + intros h g'. by destruct g' as [[doc|] b].
    + done.
    + intros l l' g'. by destruct g' as [[[? ? ? ? ? ? []]|] b].
Qed.

Lemma hooks_appended_by_stage_witness :
  let g := {| spec := None; HostSpecific := false |} in
  ∃ g', runAll [AddPostStopHook "/bin/a" []; AddPostStopHook "/bin/b" ["-x"]] g
        = Returned tt g'
        ∧ Hook_Path <$> Hooks_Poststop (hooksOf g') = ["/bin/a"; "/bin/b"]
        ∧ Hooks_Prestart (hooksOf g') = []
        ∧ Hooks_Poststart (hooksOf g') = [].
Proof.
  intros g.
  destruct (hooks_appended_by_stage [("/bin/a", []); ("/bin/b", ["-x"])] g)
    as (_ & _ & Hstop); [discriminate|].
  eexists. split; [exact Hstop|]. split_and!; reflexivity.
Defined.

(** X16: [AddLinuxMaskedPaths] and [AddLinuxReadonlyPaths], called for each
    path of a list, append the paths in order to the masked paths and to the
    read-only paths respectively; neither touches the list of the other. *)
Theorem masked_readonly_paths_appended (paths : list string) (g : Generator) :
  paths ≠ [] →
  runAll (AddLinuxMaskedPaths <$> paths) g
  = Returned tt
      (withLinux (λ l, set_Linux_MaskedPaths (Linux_MaskedPaths l ++ paths) l) g)
  ∧ runAll (AddLinuxReadonlyPaths <$> paths) g
    = Returned tt
        (withLinux (λ l, set_Linux_ReadonlyPaths
                           (Linux_ReadonlyPaths l ++ paths) l) g).
Proof.
  intros Hpaths. split.
  - rewrite (runAll_appends AddLinuxMaskedPaths id
               (λ g, Linux_MaskedPaths (linuxOf g))
               (λ l g, withLinux (set_Linux_MaskedPaths l) g));
      [by rewrite list_fmap_id| | | |done].
    + intros p g'. by destruct g' as [[[? ? ? ? ? ? ? ? [l|]]|] hs].
    + done.
    + intros l l' g'. by destruct g' as [[[? ? ? ? ? ? ? ? [lin|]]|] hs].
  - rewrite (runAll_appends AddLinuxReadonlyPaths id
               (λ g, Linux_ReadonlyPaths (linuxOf g))
               (λ l g, withLinux (set_Linux_ReadonlyPaths l) g));
      [by rewrite list_fmap_id| | | |done].
    + intros p g'. by destruct g' as [[[? ? ? ? ? ? ? ? [l|]]|] hs].
    + done.
    + intros l l' g'. by destruct g' as [[[? ? ? ? ? ? ? ? [lin|]]|] hs].
Qed.

Lemma masked_readonly_paths_appended_witness :
  let g := {| spec := None; HostSpecific := false |} in
  ∃ g', runAll [AddLinuxReadonlyPaths "/proc/sys"; AddLinuxReadonlyPaths "/sys"] g
        = Returned tt g'
        ∧ Linux_ReadonlyPaths (linuxOf g') = ["/proc/sys"; "/sys"]
        ∧ Linux_MaskedPaths (linuxOf g') = [].
Proof.
  intros g.
  destruct (masked_readonly_paths_appended ["/proc/sys"; "/sys"] g)
    as [_ Hro]; [discriminate|].
  eexists. split; [exact Hro|]. split; reflexivity.
Defined.

(** ** Saving: the full export and the syscall-filter export *)

Section save_more.
Context `{!json.Encoder} {W : Type} `{!io.Writer W}.

(** What [Save] hands to the writer once the encoding is done. *)
Lemma Save_run (w : W) (exportOpts : ExportOptions) (doc : Spec) (hs : bool) :
  let g := {| spec := Some doc; HostSpecific := hs |} in
  let finish (data : string + error) g' :=
    Returned (match data with
              | inr err => (w, Some err)
              | inl data => io.Write w data
              end) g' in
  let export d :=
    let g' := {| spec := Some d; HostSpecific := hs |} in
    if Seccomp exportOpts then
      match Spec_Linux d with
      | Some l => finish (json.MarshalIndent_Seccomp (Linux_Seccomp l)) g'
      | None => Panicked g'
      end
    else finish (json.MarshalIndent_Spec d) g' in
  Save w exportOpts g
  = match Spec_Linux doc with
    | Some l =>
        match json.Marshal_Linux l with
        | inr err => Returned (w, Some err) g
        | inl buf =>
            if bool_decide (buf = "{}") then export (set_Spec_Linux None doc)
            else export doc
        end
    | None => export doc
    end.
Proof.
  destruct exportOpts as [[]]; destruct doc as [? ? ? ? ? ? ? ? [l|]];
    unfold Save, pruneLinux; unfold_G; cbn;
    try (destruct (json.Marshal_Linux l) as [buf|err]; [|done];
         case_bool_decide; cbn);
    try destruct (json.MarshalIndent_Spec _);
    try destruct (json.MarshalIndent_Seccomp _); done.
Qed.

(** X17: on a generator with a document, [Save] without the Seccomp toggle
    never panics.  The document it leaves is the one it found with the
    Linux subtree set to nil exactly when there was no subtree or the
    subtree encoded as the empty object, and is the one it found otherwise;
    when encoding the subtree fails it returns that error with the writer
    untouched; when it does not, it returns what the writer returns on the
    encoding of the document it leaves, or the encoding error with the
    writer untouched; and a second [Save] leaves the generator as the first
    one left it. *)
Theorem Save_full_export (w : W) (g : Generator) (doc : Spec) :
  spec g = Some doc →
  let exportOpts := {| Seccomp := false |} in
  let pruned := withDoc (set_Spec_Linux None doc) g in
  ∃ r g',
    Save w exportOpts g = Returned r g'
    ∧ (g' = pruned ↔
       Spec_Linux doc = None
       ∨ ∃ l, Spec_Linux doc = Some l ∧ json.Marshal_Linux l = inl "{}")
    ∧ (g' ≠ pruned → g' = g)
    ∧ (∀ l err, Spec_Linux doc = Some l → json.Marshal_Linux l = inr err →
                r = (w, Some err))
    ∧ ((∀ l err, Spec_Linux doc = Some l → json.Marshal_Linux l ≠ inr err) →
       r = match json.MarshalIndent_Spec (docOf g') with
           | inr err => (w, Some err)
           | inl data => io.Write w data
           end)
    ∧ (∀ w', ∃ r', Save w' exportOpts g' = Returned r' g').
Proof.
  intros Hdoc exportOpts pruned. destruct g as [sp hs]. simpl in Hdoc. subst sp.
  unfold pruned, withDoc. cbn [HostSpecific].
  rewrite Save_run. cbn [Seccomp exportOpts].
  destruct doc as [? ? ? ? ? ? ? ? [l|]]; cbn [Spec_Linux set_Spec_Linux].
  - destruct (json.Marshal_Linux l) as [buf|err] eqn:Hl.
    + case_bool_decide as Hbuf.
      * subst buf. eexists _, _. split; [done|]. split_and!.
        -- split; [|done]. intros _. right. by exists l.
        -- done.
        -- intros l' err [= <-]. by rewrite Hl.
        -- done.
        -- intros w'. rewrite Save_run. cbn. eauto.
      * eexists _, _. split; [done|]. split_and!.
        -- split; [done|]. intros [|(l' & [= <-] & Hl')]; [done|].
           rewrite Hl in Hl'. by injection Hl' as ->.
        -- done.
        -- intros l' err [= <-]. by rewrite Hl.
        -- done.
        -- intros w'. rewrite Save_run. cbn. rewrite Hl.
           rewrite bool_decide_eq_false_2 by done. eauto.
    + eexists _, _. split; [done|]. split_and!.
      * split; [done|]. intros [|(l' & [= <-] & Hl')]; [done|].
        by rewrite Hl in Hl'.
      * done.
      * intros l' err' [= <-]. rewrite Hl. by intros [= ->].
      * intros Hno. by destruct (Hno l err).
      * intros w'. rewrite Save_run. cbn. rewrite Hl. eauto.
  - eexists _, _. split; [done|]. split_and!; try done.
    + split; [by left|done].
    + intros w'. rewrite Save_run. cbn. eauto.
Qed.

(** X18: [Save] with the Seccomp toggle panics exactly when the document is
    nil, or its Linux subtree is nil, or that subtree encodes as the empty
    object.  In every other case where the subtree encodes, it leaves the
    generator as it was and returns what the writer returns on the encoding
    of the syscall-filter pointer, a nil pointer included, or the encoding
    error. *)
Theorem Save_seccomp_panics_iff (w : W) (g : Generator) :
  let exportOpts := {| Seccomp := true |} in
  ((∃ g', Save w exportOpts g = Panicked g') ↔
   spec g = None
   ∨ ∃ doc, spec g = Some doc
            ∧ (Spec_Linux doc = None
               ∨ ∃ l, Spec_Linux doc = Some l
                      ∧ json.Marshal_Linux l = inl "{}"))
  ∧ (∀ doc l buf,
       spec g = Some doc → Spec_Linux doc = Some l →
       json.Marshal_Linux l = inl buf → buf ≠ "{}" →
       Save w exportOpts g
       = Returned (match json.MarshalIndent_Seccomp (Linux_Seccomp l) with
                   | inr err => (w, Some err)
                   | inl data => io.Write w data
                   end) g).
Proof.
  intros exportOpts. destruct g as [[doc|] hs].
  - rewrite Save_run. cbn [Seccomp exportOpts spec].
    destruct doc as [? ? ? ? ? ? ? ? [l|]]; cbn [Spec_Linux set_Spec_Linux].
    + destruct (json.Marshal_Linux l) as [buf|err] eqn:Hl.
      * case_bool_decide as Hbuf.
        -- subst buf. split.
           ++ split; [|eauto]. intros _. right. eexists. split; [done|].
              right. by exists l.
           ++ intros doc' l' buf' [= <-] [= <-]. rewrite Hl.
              intros [= <-] Hne. by destruct Hne.
        -- split.
           ++ split; [by intros [g' Hg']|].
              intros [|(doc' & [= <-] & [|(l' & [= <-] & Hl')])]; [done..|].
              rewrite Hl in Hl'. by injection Hl' as ->.
           ++ by intros doc' l' buf' [= <-] [= <-]; rewrite Hl; intros [= <-].
      * split.
        -- split; [by intros [g' Hg']|].
           intros [|(doc' & [= <-] & [|(l' & [= <-] & Hl')])]; [done..|].
           by rewrite Hl in Hl'.
        -- intros doc' l' buf' [= <-] [= <-]. by rewrite Hl.
    + split; [|by intros doc' l' buf' [= <-]].
      split; [|eauto]. intros _. right. eauto.
  - split; [|done]. split; [by left|]. intros _. by eexists.
Qed.
End save_more.

Lemma Save_full_export_witness :
  let g := {| spec := Some (set_Spec_Linux (Some Linux_zero) Spec_zero);
              HostSpecific := false |} in
  @Save sample_encoder (list string) buffer_writer [] {| Seccomp := false |} g
  = Returned (["{...}"], None) {| spec := Some Spec_zero; HostSpecific := false |}.
Proof.
  intros g.
  destruct (@Save_full_export sample_encoder (list string) buffer_writer [] g
              (set_Spec_Linux (Some Linux_zero) Spec_zero) eq_refl)
    as (r & g' & Hsave & Hpruned & _ & _ & Hr & _).
  rewrite Hsave.
  assert (Hg' : g' = {| spec := Some Spec_zero; HostSpecific := false |}).
  { apply Hpruned. right. exists Linux_zero. split; reflexivity. }
  rewrite Hr; [by rewrite Hg'|]. intros l err _. discriminate.
Defined.

Lemma Save_seccomp_panics_iff_witness :
  let save := @Save sample_encoder (list string) buffer_writer []
                {| Seccomp := true |} in
  let l := set_Linux_Namespaces
             [ {| LinuxNamespace_Type := "pid"; LinuxNamespace_Path := "" |} ]
             Linux_zero in
  let g := {| spec := Some (set_Spec_Linux (Some l) Spec_zero);
              HostSpecific := false |} in
  save g = Returned (["null"], None) g
  ∧ ∃ g', save {| spec := Some Spec_zero; HostSpecific := false |} = Panicked g'.
Proof.
  intros save l g.
  destruct (@Save_seccomp_panics_iff sample_encoder (list string)
              buffer_writer [] g) as [_ Hreturns].
  destruct (@Save_seccomp_panics_iff sample_encoder (list string)
              buffer_writer [] {| spec := Some Spec_zero; HostSpecific := false |})
    as [[_ Hpanics] _].
  split.
  - apply (Hreturns (set_Spec_Linux (Some l) Spec_zero) l "{...}");
      [reflexivity..|discriminate].
  - apply Hpanics. right. exists Spec_zero. split; [reflexivity|by left].
Defined.

(** ** Clearing *)



(** X20: clearing a keyed sequence and then adding to it leaves exactly the
    entry added, whatever the sequence held before: for capabilities (with a
    token that passes validation), rlimits, environment entries, additional
    gids and namespaces (with a recognised kind). *)
Theorem clear_then_add_single
    (S : strings.Pkg) (R : capability.Registry) (doc : Spec) (hs : bool) :
  let g := {| spec := Some doc; HostSpecific := hs |} in
  (∀ c, checkCap c hs = None →
     ∃ g1 g2, ClearProcessCapabilities g = Returned tt g1
              ∧ AddProcessCapability c g1 = Returned None g2
              ∧ capsOf g2 = ["CAP_" +:+ strings.ToUpper c])
  ∧ (∀ t hard soft,
       ∃ g1 g2, ClearProcessRlimits g = Returned tt g1
                ∧ AddProcessRlimits t hard soft g1 = Returned tt g2
                ∧ rlimitsOf g2 = [ {| LinuxRlimit_Type := t;
                                      LinuxRlimit_Hard := hard;
                                      LinuxRlimit_Soft := soft |} ])
  ∧ (∀ name value,
       ∃ g1 g2, ClearProcessEnv g = Returned tt g1
                ∧ AddProcessEnv name value g1 = Returned tt g2
                ∧ envOf g2 = [name +:+ "=" +:+ value])
  ∧ (∀ gid,
       ∃ g1 g2, ClearProcessAdditionalGids g = Returned tt g1
                ∧ AddProcessAdditionalGid gid g1 = Returned tt g2
                ∧ gidsOf g2 = [gid])
  ∧ (∀ k p, k ∈ Namespaces →
       ∃ g1 g2, ClearLinuxNamespaces g = Returned tt g1
                ∧ AddOrReplaceLinuxNamespace k p g1 = Returned None g2
                ∧ namespacesOf g2 = [ {| LinuxNamespace_Type := k;
                                         LinuxNamespace_Path := p |} ]).
Proof.
  intros g. unfold g. split_and!.
  - intros c Hok. eexists _, _. split; [reflexivity|].
    rewrite AddProcessCapability_run. cbn [HostSpecific]. rewrite Hok.
    split; reflexivity.
  - intros t hard soft. eexists _, _. split; [reflexivity|].
    rewrite AddProcessRlimits_run. split; reflexivity.
  - intros name value. eexists _, _. split; [reflexivity|].
    rewrite AddProcessEnv_run. split; reflexivity.
  - intros gid. eexists _, _. split; [reflexivity|].
    rewrite AddProcessAdditionalGid_run. split; reflexivity.
  - intros k p Hk. destruct doc as [? ? ? ? ? ? ? ? [l|]].
    + eexists _, _. split; [reflexivity|].
      rewrite AddOrReplaceLinuxNamespace_run by done. split; reflexivity.
    + eexists _, _. split; [reflexivity|].
      rewrite AddOrReplaceLinuxNamespace_run by done. split; reflexivity.
Qed.

Lemma clear_then_add_single_witness :
  let g := withCaps ["CAP_CHOWN"; "CAP_KILL"]
             {| spec := None; HostSpecific := false |} in
  ∃ g1 g2, ClearProcessCapabilities g = Returned tt g1
           ∧ @AddProcessCapability ascii_strings linux_caps "mknod" g1
             = Returned None g2
           ∧ capsOf g2 = ["CAP_MKNOD"].
Proof.
  intros g.
  destruct (clear_then_add_single ascii_strings linux_caps
              (docOf g) false) as (Hcaps & _).
  destruct (Hcaps "mknod" eq_refl) as (g1 & g2 & Hclear & Hadd & Hcaps').
  exists g1, g2. split_and!; [exact Hclear|exact Hadd|exact Hcaps'].
Defined.

(** ** Syscall-filter delegation *)

Section seccomp_more.
Context `{!seccomp.Engine}.

Lemma callSeccomp_run (f : LinuxSeccomp → LinuxSeccomp * option error) (g : Generator) :
  (initSpecLinuxSeccomp;; callSeccomp f) g
  = Returned (f (seccompOf g)).2
      (withLinux (set_Linux_Seccomp (Some (f (seccompOf g)).1)) g).
Proof.
  by destruct g as [[[? ? ? ? ? ? ? ?
                        [[? ? ? ? ? ? ? [s|] ? ? ? ?]|]]|] hs].
Qed.

(** X21: each method that delegates to the seccomp engine first allocates
    the document, the Linux subtree and the syscall filter where they are
    missing, hands the filter to the engine and returns the engine's error;
    whatever the engine answers, the generator it leaves has a filter, the
    one the engine left, and differs from the one it started from in nothing
    else.  So a removal of rules, too, puts a filter back where
    [SetupPrivileged(true)] had set it to nil. *)
Theorem seccomp_delegation_allocates (g : Generator) :
  let delegated (m : G (option error)) f :=
    m g = Returned (f (seccompOf g)).2
            (withLinux (set_Linux_Seccomp (Some (f (seccompOf g)).1)) g) in
  (∀ arguments, delegated (SetSyscallAction arguments)
                          (seccomp.ParseSyscallFlag arguments))
  ∧ (∀ action, delegated (SetDefaultSeccompAction action)
                         (seccomp.ParseDefaultAction action))
  ∧ (∀ action, delegated (SetDefaultSeccompActionForce action)
                         (seccomp.ParseDefaultActionForce action))
  ∧ (∀ architecture, delegated (SetSeccompArchitecture architecture)
                               (seccomp.ParseArchitectureFlag architecture))
  ∧ (∀ arguments, delegated (RemoveSeccompRule arguments)
                            (seccomp.RemoveAction arguments))
  ∧ delegated RemoveAllSeccompRules seccomp.RemoveAllSeccompRules
  ∧ (∀ (S : strings.Pkg) (R : capability.Registry),
       ∃ g1 err g2,
         SetupPrivileged true g = Returned tt g1
         ∧ Linux_Seccomp (linuxOf g1) = None
         ∧ RemoveAllSeccompRules g1 = Returned err g2
         ∧ Linux_Seccomp (linuxOf g2)
           = Some (seccomp.RemoveAllSeccompRules LinuxSeccomp_zero).1).
Proof.
  intros delegated. unfold delegated.
  split_and!; [intros; apply callSeccomp_run..|].
  intros S R. eexists _, _, _. split; [apply SetupPrivileged_run|].
  split; [done|]. split; [apply callSeccomp_run|done].
Qed.
End seccomp_more.

Lemma seccomp_delegation_allocates_witness :
  let g := {| spec := None; HostSpecific := false |} in
  ∃ err g', @SetDefaultSeccompAction sample_engine "bogus" g
            = Returned (Some err) g'
            ∧ Linux_Seccomp (linuxOf g') = Some LinuxSeccomp_zero.
Proof.
  intros g.
  destruct (@seccomp_delegation_allocates sample_engine g)
    as (_ & Hdefault & _).
  eexists _, _. split; [apply (Hdefault "bogus")|reflexivity].
Defined.
